(** * Engraving configurator: scene model, containment, gesture commit, SVG export

    A shallow embedding of [web/app/configurator/page.tsx].

    Conventions of the embedding:
    - in the scene model a JavaScript [number] is an exact rational ([Q]);
      numeric equalities are stated with [==], NaN and the infinities are
      outside the model; the two unit conversions, whose round trip depends
      on rounding and overflow, are given on binary64 numbers;
    - a JavaScript string is a [string] of UTF-8 bytes;
    - the conversion of a number to text done by a template literal is a
      language primitive, taken as the parameter [numStr] of the model;
    - the React state of the page (the item list and the selection) is a
      record threaded through a small state monad; [uuid()] is an identifier
      handed to the operation that needs one. *)

From Stdlib Require Import QArith Qminmax Qreduction Lqa.
From Stdlib Require Import ZArith Lia Bool List Permutation.
From Stdlib Require Import Ascii String DecimalString.
From Stdlib Require Import Floats.
Import ListNotations.

Open Scope string_scope.
Open Scope Q_scope.

(** ** Numbers *)

Definition Qlt_bool (a b : Q) : bool := negb (Qle_bool b a).

(** [a ?? d] *)
Definition orElse {A : Type} (o : option A) (d : A) : A :=
  match o with
  | Some v => v
  | None => d
  end.

(** Truthiness of an optional number: [undefined] and [0] are falsy. *)
Definition truthyNum (o : option Q) : bool :=
  match o with
  | Some v => negb (Qeq_bool v 0)
  | None => false
  end.

(** Truthiness of [string | null]: [null] and the empty string are falsy. *)
Definition truthyStr (o : option string) : bool :=
  match o with
  | Some s => negb (String.eqb s "")
  | None => false
  end.

(** ** Product configuration *)

Module Engrave.
Record t : Type := mk { x : Q; y : Q; w : Q; h : Q; margin : Q }.
End Engrave.

Module Canvas.
Record t : Type := mk { w : Q; h : Q }.
End Canvas.

Record Product : Type := mkProduct {
  code : string;
  canvasMm : Canvas.t;
  engraveMm : Engrave.t;
  minFontMm : Q;
  maxFontMm : Q
}.

Definition MM_TO_PX : Q := 4.

Definition PRODUCT : Product :=
  {| code := "PRKENKO_01";
     canvasMm := Canvas.mk 300 200;
     engraveMm := Engrave.mk 70 40 160 90 5;
     minFontMm := 3;
     maxFontMm := 40 |}.

(** ** Scene items *)

Record BaseItem : Type := mkBase {
  id : string;
  x : Q;
  y : Q;
  rotation : option Q;
  stroke : option string;
  strokeWidthMm : option Q
}.

Inductive FontStyle : Type := normal | bold | italic | bold_italic.
Inductive Align : Type := align_left | align_center | align_right.
Inductive OrnamentKind : Type := heart | wreath | star.

Record TextItem : Type := mkText {
  text_base : BaseItem;
  text : string;
  fontFamily : string;
  fontSizeMm : Q;
  fontStyle : FontStyle;
  align : Align;
  text_fill : option string
}.

Record RectItem : Type := mkRect {
  rect_base : BaseItem;
  w : Q;
  h : Q;
  rect_fillEnabled : bool;
  rect_fill : option string
}.

Record CircleItem : Type := mkCircle {
  circle_base : BaseItem;
  r : Q;
  circle_fillEnabled : bool;
  circle_fill : option string
}.

Record LineItem : Type := mkLine {
  line_base : BaseItem;
  x2 : Q;
  y2 : Q
}.

Record OrnamentItem : Type := mkOrnament {
  ornament_base : BaseItem;
  kind : OrnamentKind;
  scaleMm : Q
}.

(** The tagged union [Item]; the constructor is the [type] tag. *)
Inductive Item : Type :=
| IText (t : TextItem)
| IRect (q : RectItem)
| ICircle (c : CircleItem)
| ILine (l : LineItem)
| IOrnament (o : OrnamentItem).

Definition base (it : Item) : BaseItem :=
  match it with
  | IText t => text_base t
  | IRect q => rect_base q
  | ICircle c => circle_base c
  | ILine l => line_base l
  | IOrnament o => ornament_base o
  end.

(** [it.type] *)
Definition type (it : Item) : string :=
  match it with
  | IText _ => "text"
  | IRect _ => "rect"
  | ICircle _ => "circle"
  | ILine _ => "line"
  | IOrnament _ => "ornament"
  end.

Definition BLACK : string := "#000000".

Definition kind_eqb (a b : OrnamentKind) : bool :=
  match a, b with
  | heart, heart | wreath, wreath | star, star => true
  | _, _ => false
  end.

Record OrnamentDef : Type := mkOrnamentDef {
  def_kind : OrnamentKind;
  label : string;
  path : string
}.

Definition ORNAMENTS : list OrnamentDef :=
  [ mkOrnamentDef heart "Srdce"
      "M 10 30 C 10 10 30 10 30 20 C 30 10 50 10 50 30 C 50 45 30 55 30 55 C 30 55 10 45 10 30 Z";
    mkOrnamentDef wreath "Věnec"
      "M 50 30 A 20 20 0 1 1 49.9 30 Z M 50 30 A 12 12 0 1 0 49.9 30 Z";
    mkOrnamentDef star "Hvězda"
      "M 30 5 L 37 22 L 55 22 L 40 33 L 46 50 L 30 40 L 14 50 L 20 33 L 5 22 L 23 22 Z" ].

(** ** Unit conversion, clamping, escaping *)

(** [pxToMm] in the rational scene model: the quotient by [MM_TO_PX].  The
    conversions as binary64 computes them are in [Binary64] below. *)
Definition pxToMm (v : Q) : Q := v / MM_TO_PX.

(** [Math.max(min, Math.min(max, v))] *)
Definition clamp (v lo hi : Q) : Q := Qmax lo (Qmin hi v).

(** [s.replaceAll(c, rep)] for a one-character pattern [c]. *)
Fixpoint replaceAll (c : ascii) (rep : string) (s : string) : string :=
  match s with
  | EmptyString => EmptyString
  | String a s' =>
      if Ascii.eqb a c
      then (rep ++ replaceAll c rep s')%string
      else String a (replaceAll c rep s')
  end.

(** The double-quote character (code 34). *)
Definition dquote : ascii := Ascii false true false false false true false false.

Definition DQ : string := String dquote EmptyString.

Definition escapeXml (s : string) : string :=
  replaceAll "'" "&apos;"
    (replaceAll dquote "&quot;"
       (replaceAll ">" "&gt;"
          (replaceAll "<" "&lt;"
             (replaceAll "&" "&amp;" s)))).

(** ** Containment *)

Definition withinEngraveArea (it : Item) : bool :=
  let a := engraveMm PRODUCT in
  let ax1 := Engrave.x a + Engrave.margin a in
  let ay1 := Engrave.y a + Engrave.margin a in
  let ax2 := Engrave.x a + Engrave.w a - Engrave.margin a in
  let ay2 := Engrave.y a + Engrave.h a - Engrave.margin a in
  match it with
  | IText t =>
      let b := text_base t in
      Qle_bool ax1 (x b) && Qle_bool ay1 (y b)
      && Qle_bool (x b) ax2 && Qle_bool (y b) ay2
  | IRect q =>
      let b := rect_base q in
      Qle_bool ax1 (x b) && Qle_bool ay1 (y b)
      && Qle_bool (x b + w q) ax2 && Qle_bool (y b + h q) ay2
  | ICircle c =>
      let b := circle_base c in
      Qle_bool ax1 (x b - r c) && Qle_bool ay1 (y b - r c)
      && Qle_bool (x b + r c) ax2 && Qle_bool (y b + r c) ay2
  | ILine l =>
      let b := line_base l in
      let minX := Qmin (x b) (x2 l) in
      let maxX := Qmax (x b) (x2 l) in
      let minY := Qmin (y b) (y2 l) in
      let maxY := Qmax (y b) (y2 l) in
      Qle_bool ax1 minX && Qle_bool ay1 minY
      && Qle_bool maxX ax2 && Qle_bool maxY ay2
  | IOrnament o =>
      let b := ornament_base o in
      let size := scaleMm o in
      Qle_bool ax1 (x b) && Qle_bool ay1 (y b)
      && Qle_bool (x b + size) ax2 && Qle_bool (y b + size) ay2
  end.

(** The legal bounds, as the validator derives them. *)
Definition ax1 : Q := Engrave.x (engraveMm PRODUCT) + Engrave.margin (engraveMm PRODUCT).
Definition ay1 : Q := Engrave.y (engraveMm PRODUCT) + Engrave.margin (engraveMm PRODUCT).
Definition ax2 : Q :=
  Engrave.x (engraveMm PRODUCT) + Engrave.w (engraveMm PRODUCT) - Engrave.margin (engraveMm PRODUCT).
Definition ay2 : Q :=
  Engrave.y (engraveMm PRODUCT) + Engrave.h (engraveMm PRODUCT) - Engrave.margin (engraveMm PRODUCT).

(** The containment rule in the words of the specification: a point is within
    bounds when both of its coordinates lie in the closed legal intervals. *)
Definition inBounds (px py : Q) : Prop :=
  ax1 <= px /\ px <= ax2 /\ ay1 <= py /\ py <= ay2.

Definition spec_contained (it : Item) : Prop :=
  match it with
  | IText t => inBounds (x (text_base t)) (y (text_base t))
  | IRect q =>
      inBounds (x (rect_base q)) (y (rect_base q))
      /\ inBounds (x (rect_base q) + w q) (y (rect_base q) + h q)
  | ICircle c =>
      inBounds (x (circle_base c) - r c) (y (circle_base c) - r c)
      /\ inBounds (x (circle_base c) + r c) (y (circle_base c) + r c)
  | ILine l =>
      inBounds (Qmin (x (line_base l)) (x2 l)) (Qmin (y (line_base l)) (y2 l))
      /\ inBounds (Qmax (x (line_base l)) (x2 l)) (Qmax (y (line_base l)) (y2 l))
  | IOrnament o =>
      inBounds (x (ornament_base o)) (y (ornament_base o))
      /\ inBounds (x (ornament_base o) + scaleMm o) (y (ornament_base o) + scaleMm o)
  end.

(** What the check tests, inequality by inequality. *)
Definition code_contained (it : Item) : Prop :=
  match it with
  | IText t =>
      ax1 <= x (text_base t) /\ ay1 <= y (text_base t)
      /\ x (text_base t) <= ax2 /\ y (text_base t) <= ay2
  | IRect q =>
      ax1 <= x (rect_base q) /\ ay1 <= y (rect_base q)
      /\ x (rect_base q) + w q <= ax2 /\ y (rect_base q) + h q <= ay2
  | ICircle c =>
      ax1 <= x (circle_base c) - r c /\ ay1 <= y (circle_base c) - r c
      /\ x (circle_base c) + r c <= ax2 /\ y (circle_base c) + r c <= ay2
  | ILine l =>
      ax1 <= Qmin (x (line_base l)) (x2 l) /\ ay1 <= Qmin (y (line_base l)) (y2 l)
      /\ Qmax (x (line_base l)) (x2 l) <= ax2 /\ Qmax (y (line_base l)) (y2 l) <= ay2
  | IOrnament o =>
      ax1 <= x (ornament_base o) /\ ay1 <= y (ornament_base o)
      /\ x (ornament_base o) + scaleMm o <= ax2 /\ y (ornament_base o) + scaleMm o <= ay2
  end.

(** The size attributes of an item are not negative. *)
Definition sizes_nonneg (it : Item) : Prop :=
  match it with
  | IText _ => True
  | IRect q => 0 <= w q /\ 0 <= h q
  | ICircle c => 0 <= r c
  | ILine _ => True
  | IOrnament o => 0 <= scaleMm o
  end.

(** ** Page state and its monad *)

Record State : Type := mkState {
  items : list Item;
  selectedId : option string
}.

Definition M (A : Type) : Type := State -> A * State.

Definition ret {A : Type} (a : A) : M A := fun s => (a, s).

Definition bind {A B : Type} (m : M A) (k : A -> M B) : M B :=
  fun s => let (a, s') := m s in k a s'.

Notation "v <- m ;; k" := (bind m (fun v => k))
  (at level 61, m at next level, right associativity).
Notation "m ;;; k" := (bind m (fun _ => k))
  (at level 61, right associativity).

Definition getItems : M (list Item) := fun s => (items s, s).

Definition getSelectedId : M (option string) := fun s => (selectedId s, s).

(** [setItems(p => f(p))] *)
Definition setItems (f : list Item -> list Item) : M unit :=
  fun s => (tt, {| items := f (items s); selectedId := selectedId s |}).

Definition setSelectedId (i : option string) : M unit :=
  fun s => (tt, {| items := items s; selectedId := i |}).

Definition select (i : option string) : M unit := setSelectedId i.

Definition exec {A : Type} (m : M A) (s : State) : State := snd (m s).

Definition eval {A : Type} (m : M A) (s : State) : A := fst (m s).

(** The initial scene: one text item. *)
Definition initialItem (i : string) : Item :=
  IText {| text_base := {| id := i;
                           x := Engrave.x (engraveMm PRODUCT) + 10;
                           y := Engrave.y (engraveMm PRODUCT) + 25;
                           rotation := None;
                           stroke := None;
                           strokeWidthMm := Some 0 |};
           text := "Lenka & Tomáš";
           fontFamily := "Playfair Display";
           fontSizeMm := 12;
           fontStyle := bold;
           align := align_left;
           text_fill := Some BLACK |}.

Definition initialState (i : string) : State :=
  {| items := [initialItem i]; selectedId := None |}.

(** ** The add operations; [i] stands for the fresh [uuid()] *)

Definition newText (i : string) : Item :=
  IText {| text_base := {| id := i;
                           x := Engrave.x (engraveMm PRODUCT) + Engrave.margin (engraveMm PRODUCT) + 5;
                           y := Engrave.y (engraveMm PRODUCT) + Engrave.margin (engraveMm PRODUCT) + 15;
                           rotation := None;
                           stroke := None;
                           strokeWidthMm := Some 0 |};
           text := "Napište vlastní text";
           fontFamily := "Inter";
           fontSizeMm := 10;
           fontStyle := normal;
           align := align_left;
           text_fill := Some BLACK |}.

Definition addText (i : string) : M unit :=
  setItems (fun p => p ++ [newText i])%list ;;; select (Some i).

Definition newRect (i : string) : Item :=
  IRect {| rect_base := {| id := i;
                           x := Engrave.x (engraveMm PRODUCT) + 10;
                           y := Engrave.y (engraveMm PRODUCT) + 10;
                           rotation := None;
                           stroke := Some BLACK;
                           strokeWidthMm := Some 0.4 |};
           w := 40;
           h := 20;
           rect_fillEnabled := false;
           rect_fill := Some BLACK |}.

Definition addRect (i : string) : M unit :=
  setItems (fun p => p ++ [newRect i])%list ;;; select (Some i).

Definition newCircle (i : string) : Item :=
  ICircle {| circle_base := {| id := i;
                               x := Engrave.x (engraveMm PRODUCT) + 30;
                               y := Engrave.y (engraveMm PRODUCT) + 30;
                               rotation := None;
                               stroke := Some BLACK;
                               strokeWidthMm := Some 0.4 |};
             r := 12;
             circle_fillEnabled := false;
             circle_fill := Some BLACK |}.

Definition addCircle (i : string) : M unit :=
  setItems (fun p => p ++ [newCircle i])%list ;;; select (Some i).

Definition newLine (i : string) : Item :=
  ILine {| line_base := {| id := i;
                           x := Engrave.x (engraveMm PRODUCT) + 10;
                           y := Engrave.y (engraveMm PRODUCT) + 60;
                           rotation := None;
                           stroke := Some BLACK;
                           strokeWidthMm := Some 0.6 |};
           x2 := Engrave.x (engraveMm PRODUCT) + 90;
           y2 := Engrave.y (engraveMm PRODUCT) + 60 |}.

Definition addLine (i : string) : M unit :=
  setItems (fun p => p ++ [newLine i])%list ;;; select (Some i).

Definition newOrnament (i : string) (k : OrnamentKind) : Item :=
  IOrnament {| ornament_base := {| id := i;
                                   x := Engrave.x (engraveMm PRODUCT) + 10;
                                   y := Engrave.y (engraveMm PRODUCT) + 10;
                                   rotation := None;
                                   stroke := Some BLACK;
                                   strokeWidthMm := Some 0.4 |};
               kind := k;
               scaleMm := 25 |}.

Definition addOrnament (i : string) (k : OrnamentKind) : M unit :=
  setItems (fun p => p ++ [newOrnament i k])%list ;;; select (Some i).

(** ** Attribute patches

    A patch is the object literal handed to [updateSelected], one assignment
    per key.  [Assign] lists the keys the callers of [updateSelected] in the
    page pass: the editing panel (text, fontFamily, fontSizeMm, fontStyle,
    align, fill, fillEnabled, kind, scaleMm, stroke, strokeWidthMm) and
    [commitTransform] (w, h, r, fontSizeMm, scaleMm).  The other keys that
    [Partial<Item>] admits (id, x, y, rotation, type, x2, y2) are passed by no
    caller and are not modelled, so a statement over every [Patch] speaks of
    the patches the page can build, not of every [Partial<Item>].
    [{...it, ...patch}] overwrites the keys the patch has; a key the
    variant of [it] does not declare becomes a stray property of the object
    that no function of the page reads, so the typed view of the item is
    unchanged by it. *)

Inductive Assign : Type :=
| SetW (v : Q)
| SetH (v : Q)
| SetR (v : Q)
| SetFontSizeMm (v : Q)
| SetScaleMm (v : Q)
| SetText (v : string)
| SetFontFamily (v : string)
| SetFontStyle (v : FontStyle)
| SetAlign (v : Align)
| SetFill (v : string)
| SetFillEnabled (v : bool)
| SetKind (v : OrnamentKind)
| SetStroke (v : string)
| SetStrokeWidthMm (v : Q).

Definition Patch : Type := list Assign.

Definition setBase (f : BaseItem -> BaseItem) (it : Item) : Item :=
  match it with
  | IText t => IText (mkText (f (text_base t)) (text t) (fontFamily t) (fontSizeMm t)
                        (fontStyle t) (align t) (text_fill t))
  | IRect q => IRect (mkRect (f (rect_base q)) (w q) (h q) (rect_fillEnabled q) (rect_fill q))
  | ICircle c => ICircle (mkCircle (f (circle_base c)) (r c) (circle_fillEnabled c) (circle_fill c))
  | ILine l => ILine (mkLine (f (line_base l)) (x2 l) (y2 l))
  | IOrnament o => IOrnament (mkOrnament (f (ornament_base o)) (kind o) (scaleMm o))
  end.

Definition assign (it : Item) (a : Assign) : Item :=
  match a, it with
  | SetW v, IRect q => IRect (mkRect (rect_base q) v (h q) (rect_fillEnabled q) (rect_fill q))
  | SetH v, IRect q => IRect (mkRect (rect_base q) (w q) v (rect_fillEnabled q) (rect_fill q))
  | SetR v, ICircle c => ICircle (mkCircle (circle_base c) v (circle_fillEnabled c) (circle_fill c))
  | SetFontSizeMm v, IText t =>
      IText (mkText (text_base t) (text t) (fontFamily t) v (fontStyle t) (align t) (text_fill t))
  | SetScaleMm v, IOrnament o => IOrnament (mkOrnament (ornament_base o) (kind o) v)
  | SetText v, IText t =>
      IText (mkText (text_base t) v (fontFamily t) (fontSizeMm t) (fontStyle t) (align t) (text_fill t))
  | SetFontFamily v, IText t =>
      IText (mkText (text_base t) (text t) v (fontSizeMm t) (fontStyle t) (align t) (text_fill t))
  | SetFontStyle v, IText t =>
      IText (mkText (text_base t) (text t) (fontFamily t) (fontSizeMm t) v (align t) (text_fill t))
  | SetAlign v, IText t =>
      IText (mkText (text_base t) (text t) (fontFamily t) (fontSizeMm t) (fontStyle t) v (text_fill t))
  | SetFill v, IText t =>
      IText (mkText (text_base t) (text t) (fontFamily t) (fontSizeMm t) (fontStyle t) (align t) (Some v))
  | SetFill v, IRect q => IRect (mkRect (rect_base q) (w q) (h q) (rect_fillEnabled q) (Some v))
  | SetFill v, ICircle c => ICircle (mkCircle (circle_base c) (r c) (circle_fillEnabled c) (Some v))
  | SetFillEnabled v, IRect q => IRect (mkRect (rect_base q) (w q) (h q) v (rect_fill q))
  | SetFillEnabled v, ICircle c => ICircle (mkCircle (circle_base c) (r c) v (circle_fill c))
  | SetKind v, IOrnament o => IOrnament (mkOrnament (ornament_base o) v (scaleMm o))
  | SetStroke v, _ =>
      setBase (fun b => mkBase (id b) (x b) (y b) (rotation b) (Some v) (strokeWidthMm b)) it
  | SetStrokeWidthMm v, _ =>
      setBase (fun b => mkBase (id b) (x b) (y b) (rotation b) (stroke b) (Some v)) it
  | _, _ => it
  end.

(** [{ ...it, ...patch }] *)
Definition merge (it : Item) (patch : Patch) : Item := fold_left assign patch it.

Definition updateSelected (patch : Patch) : M unit :=
  sel <- getSelectedId ;;
  if negb (truthyStr sel) then ret tt
  else setItems (map (fun it =>
         if String.eqb (id (base it)) (orElse sel "") then merge it patch else it)).

(** ** Gesture commit *)

(** What [commitTransform] uses of a Konva node: its id and its scale. *)
Record KonvaNode : Type := mkNode {
  node_id : string;
  scaleX : Q;
  scaleY : Q
}.

(** [items.find((i) => i.id === id)] *)
Definition findItem (i : string) (its : list Item) : option Item :=
  find (fun it => String.eqb (id (base it)) i) its.

(** Returns the node as the handler leaves it (scale reset to 1 once the item
    is found). *)
Definition commitTransform (node : KonvaNode) : M KonvaNode :=
  its <- getItems ;;
  match findItem (node_id node) its with
  | None => ret node
  | Some item =>
      let sX := scaleX node in
      let sY := scaleY node in
      let node' := mkNode (node_id node) 1 1 in
      match item with
      | IRect q =>
          updateSelected [SetW (clamp (w q * sX) 1 500); SetH (clamp (h q * sY) 1 500)] ;;;
          ret node'
      | ICircle c =>
          updateSelected [SetR (clamp (r c * Qmax sX sY) 1 500)] ;;;
          ret node'
      | IText t =>
          updateSelected
            [SetFontSizeMm (clamp (fontSizeMm t * Qmax sX sY) (minFontMm PRODUCT) (maxFontMm PRODUCT))] ;;;
          ret node'
      | IOrnament o =>
          updateSelected [SetScaleMm (clamp (scaleMm o * Qmax sX sY) 5 120)] ;;;
          ret node'
      | ILine _ => ret node'
      end
  end.

(** The attributes a gesture commit resizes, per variant. *)
Definition sizedAttrs (it : Item) : list Q :=
  match it with
  | IText t => [fontSizeMm t]
  | IRect q => [w q; h q]
  | ICircle c => [r c]
  | ILine _ => []
  | IOrnament o => [scaleMm o]
  end.

(** ** Validation and export *)

Record ValidationResult : Type := mkResult {
  ok : bool;
  problems : list string
}.

(** The line-feed character (code 10). *)
Definition NL : string := String (Ascii false true false true false false false false) EmptyString.

Definition isWhite (c : ascii) : bool :=
  let n := nat_of_ascii c in
  (Nat.leb 9 n && Nat.leb n 13) || Nat.eqb n 32.

Fixpoint trimStart (s : string) : string :=
  match s with
  | EmptyString => EmptyString
  | String c s' => if isWhite c then trimStart s' else s
  end.

Fixpoint trimEnd (s : string) : string :=
  match s with
  | EmptyString => EmptyString
  | String c s' =>
      let t := trimEnd s' in
      if isWhite c && String.eqb t "" then EmptyString else String c t
  end.

Definition trim (s : string) : string := trimEnd (trimStart s).

Section Rendering.

(** Number to text, as a template literal does it. *)
Variable numStr : Q -> string.

Definition optNumStr (o : option Q) : string :=
  match o with
  | Some v => numStr v
  | None => "undefined"
  end.

(** One turn of the loop of [validateAll]. *)
Definition validateStep (probs : list string) (it : Item) : list string :=
  let probs1 :=
    if negb (withinEngraveArea it)
    then (probs ++ [("Prvek mimo gravírovací plochu (typ=" ++ type it ++ ").")%string])%list
    else probs in
  match it with
  | IText t =>
      if Qlt_bool (fontSizeMm t) (minFontMm PRODUCT)
      then (probs1 ++ [("Text je příliš malý (min " ++ numStr (minFontMm PRODUCT) ++ " mm).")%string])%list
      else probs1
  | _ => probs1
  end.

Definition validateAll : M ValidationResult :=
  its <- getItems ;;
  let probs := fold_left validateStep its [] in
  ret {| ok := Nat.eqb (List.length probs) 0; problems := probs |}.

(** The [sw] fragment of [exportSvgMm]. *)
Definition sw (b : BaseItem) : string :=
  if Qlt_bool 0 (orElse (strokeWidthMm b) 0)
  then " stroke=" ++ DQ ++ orElse (stroke b) BLACK ++ DQ
       ++ " stroke-width=" ++ DQ ++ optNumStr (strokeWidthMm b) ++ DQ
  else "".

(** The [rot] fragment of [exportSvgMm]. *)
Definition rot (b : BaseItem) : string :=
  if truthyNum (rotation b)
  then " transform=" ++ DQ ++ "rotate(" ++ optNumStr (rotation b) ++ " "
       ++ numStr (x b) ++ " " ++ numStr (y b) ++ ")" ++ DQ
  else "".

Definition includesItalic (f : FontStyle) : bool :=
  match f with
  | italic | bold_italic => true
  | _ => false
  end.

Definition includesBold (f : FontStyle) : bool :=
  match f with
  | bold | bold_italic => true
  | _ => false
  end.

(** The opening tag of a text primitive, up to and excluding its [>]. *)
Definition textOpenTag (t : TextItem) : string :=
  let b := text_base t in
  "<text x=" ++ DQ ++ numStr (x b) ++ DQ ++ " y=" ++ DQ ++ numStr (y b) ++ DQ
  ++ " font-family=" ++ DQ ++ escapeXml (fontFamily t) ++ DQ
  ++ " font-size=" ++ DQ ++ numStr (fontSizeMm t) ++ DQ
  ++ " font-style=" ++ DQ ++ (if includesItalic (fontStyle t) then "italic" else "normal") ++ DQ
  ++ " font-weight=" ++ DQ ++ (if includesBold (fontStyle t) then "bold" else "normal") ++ DQ
  ++ " text-anchor=" ++ DQ
  ++ match align t with
     | align_left => "start"
     | align_center => "middle"
     | align_right => "end"
     end ++ DQ
  ++ (" fill=" ++ DQ ++ orElse (text_fill t) BLACK ++ DQ)
  ++ sw b ++ rot b.

Definition fillAttr (enabled : bool) (fill : option string) : string :=
  if enabled then " fill=" ++ DQ ++ orElse fill BLACK ++ DQ
  else " fill=" ++ DQ ++ "none" ++ DQ.

(** One turn of the loop of [exportSvgMm]: the [parts] after the pushes made
    for [it]; [None] when the ornament table has no entry for the kind (the
    non-null assertion then fails on [def.path]). *)
Definition exportPush (parts : list string) (it : Item) : option (list string) :=
  match it with
  | IText t =>
      Some (parts ++ [(textOpenTag t ++ ">" ++ escapeXml (text t) ++ "</text>")%string])%list
  | IRect q =>
      let b := rect_base q in
      Some (parts ++ [("<rect x=" ++ DQ ++ numStr (x b) ++ DQ ++ " y=" ++ DQ ++ numStr (y b) ++ DQ
                      ++ " width=" ++ DQ ++ numStr (w q) ++ DQ
                      ++ " height=" ++ DQ ++ numStr (h q) ++ DQ
                      ++ fillAttr (rect_fillEnabled q) (rect_fill q)
                      ++ sw b ++ rot b ++ " />")%string])%list
  | ICircle c =>
      let b := circle_base c in
      Some (parts ++ [("<circle cx=" ++ DQ ++ numStr (x b) ++ DQ ++ " cy=" ++ DQ ++ numStr (y b) ++ DQ
                      ++ " r=" ++ DQ ++ numStr (r c) ++ DQ
                      ++ fillAttr (circle_fillEnabled c) (circle_fill c)
                      ++ sw b ++ " />")%string])%list
  | ILine l =>
      let b := line_base l in
      Some (parts ++ [("<line x1=" ++ DQ ++ numStr (x b) ++ DQ ++ " y1=" ++ DQ ++ numStr (y b) ++ DQ
                      ++ " x2=" ++ DQ ++ numStr (x2 l) ++ DQ
                      ++ " y2=" ++ DQ ++ numStr (y2 l) ++ DQ
                      ++ sw b ++ " />")%string])%list
  | IOrnament o =>
      let b := ornament_base o in
      match find (fun d => kind_eqb (def_kind d) (kind o)) ORNAMENTS with
      | None => None
      | Some def =>
          let scale := scaleMm o / 60 in
          Some (parts ++ [("<path d=" ++ DQ ++ path def ++ DQ ++ " fill=" ++ DQ ++ "none" ++ DQ
                          ++ sw b
                          ++ " transform=" ++ DQ ++ "translate(" ++ numStr (x b) ++ " "
                          ++ numStr (y b) ++ ") scale(" ++ numStr scale ++ ")" ++ DQ ++ " />")%string])%list
      end
  end.

(** The loop of [exportSvgMm] over the items. *)
Fixpoint exportParts (parts : list string) (its : list Item) : option (list string) :=
  match its with
  | [] => Some parts
  | it :: rest =>
      match exportPush parts it with
      | None => None
      | Some parts' => exportParts parts' rest
      end
  end.

Definition exportSvgMm : M (option string) :=
  its <- getItems ;;
  match exportParts [] its with
  | None => ret None
  | Some parts =>
      let cw := numStr (Canvas.w (canvasMm PRODUCT)) in
      let ch := numStr (Canvas.h (canvasMm PRODUCT)) in
      ret (Some (trim (NL ++ "<svg xmlns=" ++ DQ ++ "http://www.w3.org/2000/svg" ++ DQ ++ NL
                       ++ "  width=" ++ DQ ++ cw ++ "mm" ++ DQ ++ NL
                       ++ "  height=" ++ DQ ++ ch ++ "mm" ++ DQ ++ NL
                       ++ "  viewBox=" ++ DQ ++ "0 0 " ++ cw ++ " " ++ ch ++ DQ ++ ">" ++ NL
                       ++ "  " ++ String.concat (NL ++ "  ") parts ++ NL
                       ++ "</svg>")))
  end.

End Rendering.

(** ** A number formatter to run the model with

    Prints a rational in decimal: the integer part, then the fractional
    digits until the expansion ends (at most 17 of them).  On integers and on
    short terminating decimals this is the text JavaScript produces. *)

Fixpoint fracDigits (fuel : nat) (rem den : Z) : string :=
  match fuel with
  | O => EmptyString
  | S fuel' =>
      if Z.eqb rem 0 then EmptyString
      else (NilZero.string_of_int (Z.to_int ((rem * 10) / den))
            ++ fracDigits fuel' ((rem * 10) mod den) den)%string
  end.

Definition decStr (v : Q) : string :=
  let v' := Qred v in
  let n := Qnum v' in
  let d := Zpos (Qden v') in
  let a := Z.abs n in
  let frac := fracDigits 17 (a mod d) d in
  ((if Z.ltb n 0 then "-" else "")
   ++ NilZero.string_of_int (Z.to_int (a / d))
   ++ (if String.eqb frac "" then "" else "." ++ frac))%string.

(** ** Escaping, in the words of the specification *)

(** The entity of a reserved character; any other character stands for itself. *)
Definition escapeChar (c : ascii) : string :=
  if Ascii.eqb c "&" then "&amp;"
  else if Ascii.eqb c "<" then "&lt;"
  else if Ascii.eqb c ">" then "&gt;"
  else if Ascii.eqb c dquote then "&quot;"
  else if Ascii.eqb c "'" then "&apos;"
  else String c EmptyString.

(** One pass over the input, each character replaced on its own. *)
Fixpoint escapeSpec (s : string) : string :=
  match s with
  | EmptyString => EmptyString
  | String c s' => (escapeChar c ++ escapeSpec s')%string
  end.

(** [s.startsWith(p)] *)
Fixpoint startsWith (p s : string) : bool :=
  match p, s with
  | EmptyString, _ => true
  | String a p', String b s' => Ascii.eqb a b && startsWith p' s'
  | String _ _, EmptyString => false
  end.

Definition isEntityTail (s : string) : bool :=
  startsWith "amp;" s || startsWith "lt;" s || startsWith "gt;" s
  || startsWith "quot;" s || startsWith "apos;" s.

(** No raw reserved character: no less-than sign, greater-than sign, double
    quote or apostrophe occurs, and every ampersand opens one of the five
    entities. *)
Fixpoint noRawReserved (s : string) : bool :=
  match s with
  | EmptyString => true
  | String c s' =>
      if Ascii.eqb c "&" then isEntityTail s' && noRawReserved s'
      else if Ascii.eqb c "<" || Ascii.eqb c ">" || Ascii.eqb c dquote || Ascii.eqb c "'"
      then false
      else noRawReserved s'
  end.

(** [needle] occurs in [hay]. *)
Fixpoint contains (needle hay : string) : bool :=
  startsWith needle hay ||
  match hay with
  | EmptyString => false
  | String _ hay' => contains needle hay'
  end.

(** ** Sample items and scenes *)

Definition sampleBase (i : string) (px py : Q) : BaseItem :=
  mkBase i px py None (Some BLACK) (Some 0.4).

(** A rectangle resting on the top-left corner of the legal bounds. *)
Definition rectOnCorner : Item := IRect (mkRect (sampleBase "r1" ax1 ay1) 40 20 false None).

(** The same rectangle, 0.01 mm further out on the x axis. *)
Definition rectMovedOut : Item :=
  IRect (mkRect (sampleBase "r1" (ax1 - 0.01) ay1) 40 20 false None).

(** A text item outside the legal bounds and below the minimum font size. *)
Definition badText : Item :=
  IText (mkText (mkBase "t1" 0 0 None None (Some 0)) "x" "Inter" 2 normal align_left (Some BLACK)).

(** Items that carry a rotation of 45 degrees. *)
Definition rotatedBase (i : string) : BaseItem := mkBase i 80 50 (Some 45) (Some BLACK) (Some 0.4).

Definition ornamentRotated : Item := IOrnament (mkOrnament (rotatedBase "o1") star 60).

Definition rectRotated : Item := IRect (mkRect (rotatedBase "r3") 40 20 false None).

Definition quoteText : Item :=
  IText (mkText (mkBase "t2" 80 60 None None (Some 0))
           ("5 < 10 & " ++ DQ ++ "ok" ++ DQ) "Inter" 10 normal align_left (Some BLACK)).

(** The scene after [addRect] on the initial scene, the rectangle selected. *)
Definition sceneWithRect : State := exec (addRect "r1") (initialState "t0").

Definition sceneWithLine : State := exec (addLine "l1") (initialState "t0").

Definition sceneWithCircle : State := exec (addCircle "c1") (initialState "t0").

(** ** Findings, in the words of the specification *)

Definition outsideMsg (it : Item) : string :=
  "Prvek mimo gravírovací plochu (typ=" ++ type it ++ ").".

Definition tooSmallMsg (numStr : Q -> string) : string :=
  "Text je příliš malý (min " ++ numStr (minFontMm PRODUCT) ++ " mm).".

(** One containment finding for an item that fails the containment check. *)
Definition containmentFinding (it : Item) : list string :=
  if withinEngraveArea it then [] else [outsideMsg it].

(** One finding for a text item whose font size is below the minimum. *)
Definition fontFinding (numStr : Q -> string) (it : Item) : list string :=
  match it with
  | IText t => if Qlt_bool (fontSizeMm t) (minFontMm PRODUCT) then [tooSmallMsg numStr] else []
  | _ => []
  end.

Definition findingsOf (numStr : Q -> string) (it : Item) : list string :=
  (containmentFinding it ++ fontFinding numStr it)%list.

(** ** Gesture commit, item by item *)

(** The patch [commitTransform] hands to [updateSelected] for the item found. *)
Definition commitPatch (item : Item) (sX sY : Q) : Patch :=
  match item with
  | IRect q => [SetW (clamp (w q * sX) 1 500); SetH (clamp (h q * sY) 1 500)]
  | ICircle c => [SetR (clamp (r c * Qmax sX sY) 1 500)]
  | IText t =>
      [SetFontSizeMm (clamp (fontSizeMm t * Qmax sX sY) (minFontMm PRODUCT) (maxFontMm PRODUCT))]
  | IOrnament o => [SetScaleMm (clamp (scaleMm o * Qmax sX sY) 5 120)]
  | ILine _ => []
  end.

(** What [updateSelected] does to one item when [i] is selected. *)
Definition commitUpdate (i : string) (p : Patch) (it : Item) : Item :=
  if String.eqb (id (base it)) i then merge it p else it.

(** The sized attributes lie in the interval their commit clamps to. *)
Definition inCommitRange (it : Item) : Prop :=
  match it with
  | IRect q => (1 <= w q /\ w q <= 500) /\ (1 <= h q /\ h q <= 500)
  | ICircle c => 1 <= r c /\ r c <= 500
  | IText t => minFontMm PRODUCT <= fontSizeMm t /\ fontSizeMm t <= maxFontMm PRODUCT
  | IOrnament o => 5 <= scaleMm o /\ scaleMm o <= 120
  | ILine _ => True
  end.

(** The item with its rotation attribute replaced. *)
Definition withRotation (o : option Q) (it : Item) : Item :=
  setBase (fun b => mkBase (id b) (x b) (y b) o (stroke b) (strokeWidthMm b)) it.

(** The rotation transform attribute for angle [a] about the anchor of [b]. *)
Definition rotateAttr (numStr : Q -> string) (a : Q) (b : BaseItem) : string :=
  " transform=" ++ DQ ++ "rotate(" ++ numStr a ++ " " ++ numStr (x b) ++ " " ++ numStr (y b)
  ++ ")" ++ DQ.

(** An ornament of scale 60 with no rotation. *)
Definition ornament60 : Item :=
  IOrnament (mkOrnament (sampleBase "o2" 80 50) heart 60).

(** ** Selection, deletion, duplication, reordering, dragging *)

(** [selected]: the first item that bears the selected id. *)
Definition selectedItem (s : State) : option Item :=
  match selectedId s with
  | Some i => findItem i (items s)
  | None => None
  end.

Definition getSelected : M (option Item) := fun s => (selectedItem s, s).

Definition deleteSelected : M unit :=
  sel <- getSelectedId ;;
  if negb (truthyStr sel) then ret tt
  else
    setItems (filter (fun i => negb (String.eqb (id (base i)) (orElse sel "")))) ;;;
    select None.

(** [{ ...selected, id: uuid(), x: selected.x + 5, y: selected.y + 5 }] *)
Definition duplicateOf (i : string) (selected : Item) : Item :=
  setBase (fun b => mkBase i (x b + 5) (y b + 5) (rotation b) (stroke b) (strokeWidthMm b))
          selected.

(** [i] stands for the fresh [uuid()]. *)
Definition duplicateSelected (i : string) : M unit :=
  selected <- getSelected ;;
  match selected with
  | None => ret tt
  | Some it =>
      let copy := duplicateOf i it in
      setItems (fun p => p ++ [copy])%list ;;; select (Some (id (base copy)))
  end.

Inductive Dir : Type := front | back.

(** [p.findIndex((i) => i.id === selectedId)]; [None] stands for -1. *)
Fixpoint findIndex (i : string) (p : list Item) : option nat :=
  match p with
  | [] => None
  | it :: rest =>
      if String.eqb (id (base it)) i then Some O
      else match findIndex i rest with
           | Some n => Some (S n)
           | None => None
           end
  end.

(** [arr.splice(idx, 1)]: the removed elements and what is left of [arr]. *)
Definition splice1 (idx : nat) (arr : list Item) : list Item * list Item :=
  (firstn 1 (skipn idx arr), (firstn idx arr ++ skipn (S idx) arr)%list).

Definition moveSelected (dir : Dir) : M unit :=
  sel <- getSelectedId ;;
  if negb (truthyStr sel) then ret tt
  else
    setItems (fun p =>
      match findIndex (orElse sel "") p with
      | None => p
      | Some idx =>
          let (removed, arr) := splice1 idx p in
          match removed with
          | it :: _ =>
              match dir with
              | front => (arr ++ [it])%list
              | back => it :: arr
              end
          | [] => arr (* does not arise: [idx] is an index of [p] *)
          end
      end).

(** The [onDragEnd] handler of the node drawn for the item of id [i]; the
    node reports its position [nodeX], [nodeY] in device units. *)
Definition onDragEnd (i : string) (nodeX nodeY : Q) : M unit :=
  let nx := pxToMm nodeX in
  let ny := pxToMm nodeY in
  setItems (map (fun it =>
    if String.eqb (id (base it)) i
    then setBase (fun b => mkBase (id b) nx ny (rotation b) (stroke b) (strokeWidthMm b)) it
    else it)).

(** ** The editing panel *)

(** The style the "bold" button stores. *)
Definition toggleBold (f : FontStyle) : FontStyle :=
  if includesBold f
  then (if includesItalic f then italic else normal)
  else (if includesItalic f then bold_italic else bold).

(** The style the "italic" button stores. *)
Definition toggleItalic (f : FontStyle) : FontStyle :=
  if includesItalic f
  then (if includesBold f then bold else normal)
  else (if includesBold f then bold_italic else italic).

(** The assignments the editing panel hands to [updateSelected]; a numeric
    field holds the value read from its input. *)
Inductive editorAssign : Assign -> Prop :=
| edit_text v : editorAssign (SetText v)
| edit_fontFamily v : editorAssign (SetFontFamily v)
| edit_fontSizeMm v :
    editorAssign (SetFontSizeMm (clamp v (minFontMm PRODUCT) (maxFontMm PRODUCT)))
| edit_fill v : editorAssign (SetFill v)
| edit_fontStyle f : editorAssign (SetFontStyle f)
| edit_align a : editorAssign (SetAlign a)
| edit_stroke v : editorAssign (SetStroke v)
| edit_strokeWidthMm v : editorAssign (SetStrokeWidthMm (clamp v 0 5))
| edit_lineStrokeWidthMm v : editorAssign (SetStrokeWidthMm (clamp v 0.1 5))
| edit_fillEnabled b : editorAssign (SetFillEnabled b)
| edit_scaleMm v : editorAssign (SetScaleMm (clamp v 5 120))
| edit_kind k : editorAssign (SetKind k).

(** ** Export on demand *)

Inductive ExportOutcome : Type :=
| Refused (alert : string)
| Exported (svg : string)
| Thrown.

Definition handleExport (numStr : Q -> string) : M ExportOutcome :=
  v <- validateAll numStr ;;
  if negb (ok v)
  then ret (Refused ("Nejde exportovat:" ++ NL ++ "- " ++ String.concat (NL ++ "- ") (problems v)))
  else
    svg <- exportSvgMm numStr ;;
    match svg with
    | Some doc => ret (Exported doc)
    | None => ret Thrown
    end.

(** ** The events of the page and the scenes they reach *)

(** One event of the page: an add, delete, duplicate or reorder button, a
    click that selects, an edit in the panel, the end of a drag or of a
    transform gesture.  An identifier drawn by [uuid()] is one no item of
    the scene bears. *)
Inductive step : State -> State -> Prop :=
| step_addText s i : findItem i (items s) = None -> step s (exec (addText i) s)
| step_addRect s i : findItem i (items s) = None -> step s (exec (addRect i) s)
| step_addCircle s i : findItem i (items s) = None -> step s (exec (addCircle i) s)
| step_addLine s i : findItem i (items s) = None -> step s (exec (addLine i) s)
| step_addOrnament s i k :
    findItem i (items s) = None -> step s (exec (addOrnament i k) s)
| step_delete s : step s (exec deleteSelected s)
| step_duplicate s i :
    findItem i (items s) = None -> step s (exec (duplicateSelected i) s)
| step_move s dir : step s (exec (moveSelected dir) s)
| step_select s sel : step s (exec (select sel) s)
| step_edit s a : editorAssign a -> step s (exec (updateSelected [a]) s)
| step_drag s i nodeX nodeY : step s (exec (onDragEnd i nodeX nodeY) s)
| step_commit s node : step s (exec (commitTransform node) s).

Inductive reachable : State -> Prop :=
| reach_init i : reachable (initialState i)
| reach_step s s' : reachable s -> step s s' -> reachable s'.

(** The stroke width, when present, lies between 0 and 5 mm. *)
Definition strokeWidthOk (it : Item) : Prop :=
  match strokeWidthMm (base it) with
  | Some v => 0 <= v /\ v <= 5
  | None => True
  end.

(** The numeric assignments of a patch hold values in the interval of their
    attribute. *)
Definition assignInRange (a : Assign) : Prop :=
  match a with
  | SetW v | SetH v | SetR v => 1 <= v /\ v <= 500
  | SetFontSizeMm v => minFontMm PRODUCT <= v /\ v <= maxFontMm PRODUCT
  | SetScaleMm v => 5 <= v /\ v <= 120
  | SetStrokeWidthMm v => 0 <= v /\ v <= 5
  | _ => True
  end.

(** An item passes both rules of the validator. *)
Definition itemValid (it : Item) : bool :=
  withinEngraveArea it
  && match it with
     | IText t => negb (Qlt_bool (fontSizeMm t) (minFontMm PRODUCT))
     | _ => true
     end.

(** None of the five reserved characters occurs. *)
Fixpoint noReserved (s : string) : bool :=
  match s with
  | EmptyString => true
  | String c s' =>
      negb (Ascii.eqb c "&" || Ascii.eqb c "<" || Ascii.eqb c ">"
            || Ascii.eqb c dquote || Ascii.eqb c "'")
      && noReserved s'
  end.

(** The document [exportSvgMm] wraps around the joined primitives. *)
Definition svgDocument (numStr : Q -> string) (parts : list string) : string :=
  let cw := numStr (Canvas.w (canvasMm PRODUCT)) in
  let ch := numStr (Canvas.h (canvasMm PRODUCT)) in
  "<svg xmlns=" ++ DQ ++ "http://www.w3.org/2000/svg" ++ DQ ++ NL
  ++ "  width=" ++ DQ ++ cw ++ "mm" ++ DQ ++ NL
  ++ "  height=" ++ DQ ++ ch ++ "mm" ++ DQ ++ NL
  ++ "  viewBox=" ++ DQ ++ "0 0 " ++ cw ++ " " ++ ch ++ DQ ++ ">" ++ NL
  ++ "  " ++ String.concat (NL ++ "  ") parts ++ NL
  ++ "</svg>".

(** The sizes and the stroke width of every item are in range, and no two
    items bear the same identifier. *)
Definition sceneInv (its : list Item) : Prop :=
  Forall (fun it => inCommitRange it /\ strokeWidthOk it) its
  /\ NoDup (map (fun it => id (base it)) its).

(** An inequality between two numerals. *)
Ltac qconst := unfold Qle; simpl; lia.

(** ** The unit conversions on binary64 numbers

    [mm] and [pxToMm] as the page runs them: on IEEE 754 binary64 values,
    every operation rounded to nearest, ties to even. *)

Module Binary64.

Definition MM_TO_PX : float := 4%float.

Definition mm (v : float) : float := (v * MM_TO_PX)%float.

Definition pxToMm (v : float) : float := (v / MM_TO_PX)%float.

(** The number written 1e308, and [Number.MAX_VALUE]. *)
Definition huge : float := 0x1.1ccf385ebc8ap+1023%float.

Definition MAX_VALUE : float := 0x1.fffffffffffffp+1023%float.

(** The number 4, as the specification of binary64 holds it. *)
Definition four : spec_float := S754_finite false 4503599627370496 (-50).

End Binary64.

(** ** The transformer and the end of a gesture *)

(** The item whose node the transformer is attached to: the attach effect
    gives the transformer the node whose id is [selectedId] when an id is
    selected and the stage holds such a node, and no node otherwise. *)
Definition transformerItem (s : State) : option Item :=
  if negb (truthyStr (selectedId s)) then None
  else findItem (orElse (selectedId s) "") (items s).

Definition getTransformerItem : M (option Item) := fun s => (transformerItem s, s).

(** The end of a resize gesture that left the scales [sX], [sY] on the node
    of the transformer: the elements drawn for text, rectangle, circle and
    ornament items hand that node to [commitTransform]; the element drawn for
    a line has no [onTransformEnd] handler. *)
Definition onTransformEnd (sX sY : Q) : M unit :=
  target <- getTransformerItem ;;
  match target with
  | None => ret tt
  | Some (ILine _) => ret tt
  | Some it => commitTransform (mkNode (id (base it)) sX sY) ;;; ret tt
  end.

(** Saturation, in the words of the specification: [res] is [v] capped at
    the bound it would exceed. *)
Definition saturated (v lo hi res : Q) : Prop :=
  (v < lo /\ res == lo) \/ (lo <= v /\ v <= hi /\ res == v) \/ (hi < v /\ res == hi).

(** The item with its anchor replaced. *)
Definition withAnchor (px py : Q) (it : Item) : Item :=
  setBase (fun b => mkBase (id b) px py (rotation b) (stroke b) (strokeWidthMm b)) it.

(** [a'] is [a] but for its sized attributes: putting the sizes of [a] back
    into [a'] gives [a]. *)
Definition sameButSizes (a a' : Item) : Prop :=
  match a, a' with
  | IText t, IText t' =>
      mkText (text_base t') (text t') (fontFamily t') (fontSizeMm t) (fontStyle t') (align t')
        (text_fill t') = t
  | IRect q, IRect q' =>
      mkRect (rect_base q') (w q) (h q) (rect_fillEnabled q') (rect_fill q') = q
  | ICircle c, ICircle c' =>
      mkCircle (circle_base c') (r c) (circle_fillEnabled c') (circle_fill c') = c
  | ILine l, ILine l' => l' = l
  | IOrnament o, IOrnament o' => mkOrnament (ornament_base o') (kind o') (scaleMm o) = o
  | _, _ => False
  end.

(** The scene after [addRect] and a drag of the rectangle onto the top-left
    corner of the legal bounds (the node dropped at 300, 180 device units),
    and the same with the node dropped 0.04 device units further left. *)
Definition sceneRectOnCorner : State := exec (onDragEnd "r1" 300 180) sceneWithRect.

Definition sceneRectMovedOut : State := exec (onDragEnd "r1" 299.96 180) sceneWithRect.

(** The default rectangle with its anchor at [px], [py]. *)
Definition rectAt (px py : Q) : Item :=
  IRect (mkRect (mkBase "r1" px py None (Some BLACK) (Some 0.4)) 40 20 false (Some BLACK)).

(** * Properties *)

(** ** Comparisons *)

Lemma Qle_bool_false (a b : Q) : Qle_bool a b = false <-> b < a.
Proof.
  split; intro H.
  - apply Qnot_le_lt. intro Hle. apply Qle_bool_iff in Hle. congruence.
  - destruct (Qle_bool a b) eqn:E; [|reflexivity].
    apply Qle_bool_iff in E. exfalso. apply (Qlt_not_le _ _ H E).
Qed.

Lemma Qlt_bool_iff (a b : Q) : Qlt_bool a b = true <-> a < b.
Proof.
  unfold Qlt_bool. rewrite negb_true_iff. apply Qle_bool_false.
Qed.

Lemma and4_true (a b c d : bool) :
  a && b && c && d = true <-> a = true /\ b = true /\ c = true /\ d = true.
Proof.
  rewrite !andb_true_iff. tauto.
Qed.

Lemma bounds_values : ax1 == 75 /\ ay1 == 45 /\ ax2 == 225 /\ ay2 == 125.
Proof.
  repeat split; reflexivity.
Qed.

(** The check is the conjunction of the four inequalities it evaluates. *)
Lemma withinEngraveArea_code (it : Item) :
  withinEngraveArea it = true <-> code_contained it.
Proof.
  destruct it; unfold withinEngraveArea, code_contained;
    cbv zeta; rewrite and4_true, !Qle_bool_iff; reflexivity.
Qed.

Lemma code_contained_spec (it : Item) :
  sizes_nonneg it -> (code_contained it <-> spec_contained it).
Proof.
  pose proof bounds_values as (Hx1 & Hy1 & Hx2 & Hy2).
  destruct it; unfold code_contained, spec_contained, sizes_nonneg, inBounds;
    rewrite ?Hx1, ?Hy1, ?Hx2, ?Hy2; intros Hs.
  - tauto.
  - split; intro; lra.
  - split; intro; lra.
  - split.
    + intros (A & B & C & D).
      pose proof (Q.le_min_l (x (line_base l)) (x2 l)).
      pose proof (Q.le_max_l (x (line_base l)) (x2 l)).
      pose proof (Q.le_min_l (y (line_base l)) (y2 l)).
      pose proof (Q.le_max_l (y (line_base l)) (y2 l)).
      repeat split; lra.
    + tauto.
  - split; intro; lra.
Qed.

(** ** Containment *)

(** ** Default placements *)

(** C6: with the configured geometry, the item each add operation appends,
    and the initial text item, pass the containment check when created. *)
Theorem added_items_within_engrave_area (i : string) (k : OrnamentKind) (s : State) :
  (items (exec (addText i) s) = (items s ++ [newText i])%list
   /\ withinEngraveArea (newText i) = true)
  /\ (items (exec (addRect i) s) = (items s ++ [newRect i])%list
      /\ withinEngraveArea (newRect i) = true)
  /\ (items (exec (addCircle i) s) = (items s ++ [newCircle i])%list
      /\ withinEngraveArea (newCircle i) = true)
  /\ (items (exec (addLine i) s) = (items s ++ [newLine i])%list
      /\ withinEngraveArea (newLine i) = true)
  /\ (items (exec (addOrnament i k) s) = (items s ++ [newOrnament i k])%list
      /\ withinEngraveArea (newOrnament i k) = true)
  /\ (items (initialState i) = [initialItem i]
      /\ withinEngraveArea (initialItem i) = true)
  /\ engraveMm PRODUCT = Engrave.mk 70 40 160 90 5.
Proof.
  repeat split.
Qed.

(** ** Gesture commit on a line *)

(** C10: committing a gesture on a line item leaves the whole page state,
    and so every item of the scene, as it was. *)
Theorem commitTransform_line_noop (s : State) (node : KonvaNode) (l : LineItem) :
  findItem (node_id node) (items s) = Some (ILine l) ->
  exec (commitTransform node) s = s.
Proof.
  intro Hf. unfold exec, commitTransform, bind, getItems.
  rewrite Hf. reflexivity.
Qed.

(** The theorem on the scene that holds the default line. *)
Lemma commitTransform_line_noop_witness :
  findItem "l1" (items sceneWithLine) = Some (newLine "l1")
  /\ exec (commitTransform (mkNode "l1" 2 3)) sceneWithLine = sceneWithLine.
Proof.
  split; [reflexivity|].
  apply (commitTransform_line_noop sceneWithLine (mkNode "l1" 2 3)
           (mkLine (mkBase "l1" (70 + 10) (40 + 60) None (Some BLACK) (Some 0.6))
                   (70 + 90) (40 + 60))).
  reflexivity.
Defined.

(** ** Validation *)

Lemma validateStep_findings (numStr : Q -> string) (probs : list string) (it : Item) :
  validateStep numStr probs it = (probs ++ findingsOf numStr it)%list.
Proof.
  unfold validateStep, findingsOf, containmentFinding, fontFinding, outsideMsg, tooSmallMsg.
  destruct (withinEngraveArea it); simpl negb; cbv iota;
    destruct it; try destruct (Qlt_bool _ _);
    simpl; rewrite ?app_nil_r, <- ?app_assoc; reflexivity.
Qed.

Lemma validate_loop_findings (numStr : Q -> string) (its : list Item) :
  forall probs,
    fold_left (validateStep numStr) its probs
    = (probs ++ flat_map (findingsOf numStr) its)%list.
Proof.
  induction its as [|it its IH]; intro probs; simpl.
  - now rewrite app_nil_r.
  - rewrite IH, validateStep_findings, app_assoc. reflexivity.
Qed.

(** C3: [validateAll] reports ok exactly when its problem list is empty; the
    list holds, item after item in scene order, one containment finding for
    each item that fails the containment check and, whatever the containment
    check said, one finding for each text item below the minimum font size (a
    text item that is both outside and too small yields the two findings);
    the page state is left as it was. *)
Theorem validateAll_collects_all_findings (numStr : Q -> string) (s : State) :
  problems (eval (validateAll numStr) s) = flat_map (findingsOf numStr) (items s)
  /\ (ok (eval (validateAll numStr) s) = true <-> problems (eval (validateAll numStr) s) = [])
  /\ exec (validateAll numStr) s = s
  /\ withinEngraveArea badText = false
  /\ problems (eval (validateAll numStr) (mkState [badText; rectOnCorner; rectMovedOut] None))
     = [outsideMsg badText; tooSmallMsg numStr; outsideMsg rectMovedOut].
Proof.
  assert (Hp : forall st, problems (eval (validateAll numStr) st)
                          = flat_map (findingsOf numStr) (items st)).
  { intro st. unfold eval, validateAll, bind, getItems, ret; simpl.
    now rewrite validate_loop_findings. }
  split; [apply Hp|]. split; [|split; [reflexivity|split; [reflexivity|]]].
  - unfold eval, validateAll, bind, getItems, ret; simpl.
    destruct (fold_left (validateStep numStr) (items s) []); simpl; split;
      intro; try reflexivity; discriminate.
  - rewrite Hp. reflexivity.
Qed.

(** ** Escaping *)

Lemma escapeXml_cons (c : ascii) (s : string) :
  escapeXml (String c s) = (escapeChar c ++ escapeXml s)%string.
Proof.
  unfold escapeXml, escapeChar.
  destruct (Ascii.eqb_spec c "&") as [->|N1]; [reflexivity|].
  destruct (Ascii.eqb_spec c "<") as [->|N2]; [reflexivity|].
  destruct (Ascii.eqb_spec c ">") as [->|N3]; [reflexivity|].
  destruct (Ascii.eqb_spec c dquote) as [->|N4]; [reflexivity|].
  destruct (Ascii.eqb_spec c "'") as [->|N5]; [reflexivity|].
  apply Ascii.eqb_neq in N1, N2, N3, N4, N5.
  simpl. rewrite N1. simpl. rewrite N2. simpl. rewrite N3. simpl. rewrite N4.
  simpl. rewrite N5. reflexivity.
Qed.

(** The five successive replacements amount to one pass over the input. *)
Lemma escapeXml_single_pass (s : string) : escapeXml s = escapeSpec s.
Proof.
  induction s as [|c s IH]; [reflexivity|].
  rewrite escapeXml_cons, IH. reflexivity.
Qed.

Lemma escapeSpec_noRawReserved (s : string) : noRawReserved (escapeSpec s) = true.
Proof.
  induction s as [|c s IH]; [reflexivity|].
  simpl escapeSpec. unfold escapeChar.
  destruct (Ascii.eqb_spec c "&") as [->|N1]; [exact IH|].
  destruct (Ascii.eqb_spec c "<") as [->|N2]; [exact IH|].
  destruct (Ascii.eqb_spec c ">") as [->|N3]; [exact IH|].
  destruct (Ascii.eqb_spec c dquote) as [->|N4]; [exact IH|].
  destruct (Ascii.eqb_spec c "'") as [->|N5]; [exact IH|].
  apply Ascii.eqb_neq in N1, N2, N3, N4, N5.
  simpl. rewrite N1, N2, N3, N4, N5. exact IH.
Qed.

(** C4: on every string, [escapeXml] replaces each of the five reserved
    characters by its entity in what amounts to a single pass (the ampersand
    first, so no entity is escaped again); the text payload of an exported
    text primitive is the escaped content and holds no raw reserved
    character; the function is total. *)
Theorem escapeXml_escapes_reserved (numStr : Q -> string) (parts : list string)
    (s : string) (t : TextItem) :
  escapeXml s = escapeSpec s
  /\ noRawReserved (escapeXml s) = true
  /\ exportPush numStr parts (IText t)
     = Some (parts ++ [(textOpenTag numStr t ++ ">" ++ escapeXml (text t) ++ "</text>")%string])%list
  /\ noRawReserved (escapeXml (text t)) = true
  /\ escapeXml ("5 < 10 & " ++ DQ ++ "ok" ++ DQ) = "5 &lt; 10 &amp; &quot;ok&quot;"
  /\ escapeXml ("&<>" ++ DQ ++ "'") = "&amp;&lt;&gt;&quot;&apos;"
  /\ escapeXml "&amp;" = "&amp;amp;".
Proof.
  repeat split.
  - apply escapeXml_single_pass.
  - rewrite escapeXml_single_pass. apply escapeSpec_noRawReserved.
  - rewrite escapeXml_single_pass. apply escapeSpec_noRawReserved.
Qed.

(** ** Export *)

Lemma sapp_assoc (a b c : string) : ((a ++ b) ++ c = a ++ (b ++ c))%string.
Proof.
  induction a as [|ch a IH]; simpl; [reflexivity|]. now rewrite IH.
Qed.

Lemma sapp_nil_r (a : string) : (a ++ "" = a)%string.
Proof.
  induction a as [|ch a IH]; simpl; [reflexivity|]. now rewrite IH.
Qed.

Lemma truthyNum_Some (a : Q) : ~ a == 0 -> truthyNum (Some a) = true.
Proof.
  intro H. simpl. destruct (Qeq_bool a 0) eqn:E; [|reflexivity].
  apply Qeq_bool_iff in E. contradiction.
Qed.

Lemma rot_truthy (numStr : Q -> string) (b : BaseItem) (a : Q) :
  rotation b = Some a -> ~ a == 0 -> rot numStr b = rotateAttr numStr a b.
Proof.
  intros Hr Ha. unfold rot, rotateAttr.
  rewrite Hr, (truthyNum_Some a Ha). reflexivity.
Qed.

(** C2 (as amended): when the rotation attribute of an item is present and
    not zero, the primitive of a Text or a Rectangle item carries the
    transform rotate(rotation x y) about the anchor of the item, and is
    otherwise the primitive of the same item without rotation; the
    primitives of Circle, Line and Ornament items are those of the same
    item without rotation. *)
Theorem exportPush_rotation (numStr : Q -> string) (parts : list string) (it : Item) (a : Q) :
  rotation (base it) = Some a ->
  ~ a == 0 ->
  match it with
  | IText _ | IRect _ =>
      exists pre post : string,
        exportPush numStr parts it
        = Some (parts ++ [(pre ++ rotateAttr numStr a (base it) ++ post)%string])%list
        /\ exportPush numStr parts (withRotation None it)
           = Some (parts ++ [(pre ++ post)%string])%list
  | ICircle _ | ILine _ | IOrnament _ =>
      exportPush numStr parts it = exportPush numStr parts (withRotation None it)
  end.
Proof.
  intros Hr Ha. destruct it as [t|q|c|l|o]; simpl in Hr; try reflexivity.
  - exists ("<text x=" ++ DQ ++ numStr (x (text_base t)) ++ DQ
            ++ " y=" ++ DQ ++ numStr (y (text_base t)) ++ DQ
            ++ " font-family=" ++ DQ ++ escapeXml (fontFamily t) ++ DQ
            ++ " font-size=" ++ DQ ++ numStr (fontSizeMm t) ++ DQ
            ++ " font-style=" ++ DQ
            ++ (if includesItalic (fontStyle t) then "italic" else "normal") ++ DQ
            ++ " font-weight=" ++ DQ
            ++ (if includesBold (fontStyle t) then "bold" else "normal") ++ DQ
            ++ " text-anchor=" ++ DQ
            ++ match align t with
               | align_left => "start"
               | align_center => "middle"
               | align_right => "end"
               end ++ DQ
            ++ (" fill=" ++ DQ ++ orElse (text_fill t) BLACK ++ DQ)
            ++ sw numStr (text_base t))%string,
           (">" ++ escapeXml (text t) ++ "</text>")%string.
    split.
    + unfold exportPush, textOpenTag. rewrite (rot_truthy numStr _ a Hr Ha).
      do 2 f_equal. f_equal. rewrite <- !sapp_assoc. reflexivity.
    + unfold exportPush, textOpenTag, withRotation, setBase.
      cbn [text_base x y fontFamily fontSizeMm fontStyle align text_fill text].
      unfold rot, sw. cbn [rotation truthyNum stroke strokeWidthMm].
      do 2 f_equal. f_equal. rewrite sapp_nil_r, <- !sapp_assoc. reflexivity.
  - exists ("<rect x=" ++ DQ ++ numStr (x (rect_base q)) ++ DQ ++ " y=" ++ DQ
            ++ numStr (y (rect_base q)) ++ DQ
            ++ " width=" ++ DQ ++ numStr (w q) ++ DQ
            ++ " height=" ++ DQ ++ numStr (h q) ++ DQ
            ++ fillAttr (rect_fillEnabled q) (rect_fill q)
            ++ sw numStr (rect_base q))%string, " />".
    split.
    + unfold exportPush. rewrite (rot_truthy numStr _ a Hr Ha).
      do 2 f_equal. f_equal. rewrite <- !sapp_assoc. reflexivity.
    + unfold exportPush, withRotation, setBase. cbn [rect_base x y w h rect_fillEnabled rect_fill].
      unfold rot, sw. cbn [rotation truthyNum stroke strokeWidthMm].
      do 2 f_equal. f_equal. rewrite <- !sapp_assoc, sapp_nil_r. reflexivity.
Qed.

(** The theorem at a rectangle rotated by 45 degrees. *)
Lemma exportPush_rotation_witness :
  rotation (base rectRotated) = Some 45
  /\ ~ 45 == 0
  /\ exists pre post : string,
       exportPush decStr [] rectRotated
       = Some [(pre ++ rotateAttr decStr 45 (base rectRotated) ++ post)%string]
       /\ exportPush decStr [] (withRotation None rectRotated) = Some [(pre ++ post)%string].
Proof.
  assert (H45 : ~ 45 == 0) by (intro H; discriminate H).
  split; [reflexivity|]. split; [exact H45|].
  exact (exportPush_rotation decStr [] rectRotated 45 eq_refl H45).
Defined.

(** C2, as stated, fails on ornaments: an ornament whose rotation is 45
    degrees is exported as a path element with no rotation transform. *)
Lemma exportPush_ornament_without_rotation :
  truthyNum (rotation (base ornamentRotated)) = true
  /\ exists out : string,
       exportPush decStr [] ornamentRotated = Some [out]
       /\ contains "rotate(" out = false
       /\ exportPush decStr [] (withRotation None ornamentRotated) = Some [out].
Proof.
  split; [reflexivity|].
  eexists. split; [vm_compute; reflexivity|].
  split; vm_compute; reflexivity.
Qed.

(** ** Ornaments *)

Lemma ornament_def_found (k : OrnamentKind) :
  exists def : OrnamentDef,
    find (fun d => kind_eqb (def_kind d) k) ORNAMENTS = Some def
    /\ In def ORNAMENTS /\ def_kind def = k.
Proof.
  destruct k; eexists; (split; [reflexivity|]); simpl; auto.
Qed.

Lemma ornament_scale_one (v : Q) : v / 60 == 1 <-> v == 60.
Proof.
  split; intro H.
  - assert (E : v == v / 60 * 60) by (field; discriminate).
    rewrite E, H. reflexivity.
  - rewrite H. reflexivity.
Qed.

(** C9: an ornament item is exported as exactly one path primitive: the
    outline the table holds for its kind, fill none, and the transform
    translate(x y) scale(scaleMm / 60); the scale factor is 1 exactly when
    scaleMm is 60. *)
Theorem exportPush_ornament (numStr : Q -> string) (parts : list string) (o : OrnamentItem) :
  exists def : OrnamentDef,
    In def ORNAMENTS
    /\ def_kind def = kind o
    /\ exportPush numStr parts (IOrnament o)
       = Some (parts ++ [("<path d=" ++ DQ ++ path def ++ DQ ++ " fill=" ++ DQ ++ "none" ++ DQ
                          ++ sw numStr (ornament_base o)
                          ++ " transform=" ++ DQ
                          ++ "translate(" ++ numStr (x (ornament_base o)) ++ " "
                          ++ numStr (y (ornament_base o))
                          ++ ") scale(" ++ numStr (scaleMm o / 60) ++ ")" ++ DQ ++ " />")%string])%list
    /\ (scaleMm o / 60 == 1 <-> scaleMm o == 60)
    /\ exportPush decStr [] ornament60
       = Some [("<path d=" ++ DQ ++ "M 10 30 C 10 10 30 10 30 20 C 30 10 50 10 50 30 C 50 45 30 55 30 55 C 30 55 10 45 10 30 Z"
                ++ DQ ++ " fill=" ++ DQ ++ "none" ++ DQ
                ++ " stroke=" ++ DQ ++ "#000000" ++ DQ ++ " stroke-width=" ++ DQ ++ "0.4" ++ DQ
                ++ " transform=" ++ DQ ++ "translate(80 50) scale(1)" ++ DQ ++ " />")%string].
Proof.
  destruct (ornament_def_found (kind o)) as (def & Hf & Hin & Hk).
  exists def. split; [exact Hin|]. split; [exact Hk|].
  split; [|split; [apply ornament_scale_one|vm_compute; reflexivity]].
  unfold exportPush. rewrite Hf. reflexivity.
Qed.

(** ** Clamping *)

Lemma clamp_range (v lo hi : Q) :
  lo <= hi -> lo <= clamp v lo hi /\ clamp v lo hi <= hi.
Proof.
  intro H. unfold clamp. split.
  - apply Q.le_max_l.
  - apply Q.max_lub; [exact H|apply Q.le_min_l].
Qed.

Lemma clamp_lower (v lo hi : Q) : lo <= clamp v lo hi.
Proof.
  apply Q.le_max_l.
Qed.

Lemma clamp_upper (v lo hi : Q) : lo <= hi -> clamp v lo hi <= hi.
Proof.
  intro H. apply (clamp_range v lo hi H).
Qed.

Lemma clamp_inside (v lo hi : Q) : lo <= v -> v <= hi -> clamp v lo hi == v.
Proof.
  intros H1 H2. unfold clamp.
  rewrite (Q.min_r hi v H2). apply Q.max_r, H1.
Qed.

(** Re-clamping a clamped value scaled by 1 gives the value back. *)
Lemma clamp_again (v lo hi s : Q) :
  lo <= hi -> s == 1 -> clamp (clamp v lo hi * s) lo hi == clamp v lo hi.
Proof.
  intros H Hs. destruct (clamp_range v lo hi H) as [A B].
  assert (E : clamp v lo hi * s == clamp v lo hi) by (rewrite Hs; ring).
  rewrite (clamp_inside (clamp v lo hi * s) lo hi); [exact E| |]; rewrite E; assumption.
Qed.

(** ** Gesture commit *)

Lemma assign_id (it : Item) (a : Assign) : id (base (assign it a)) = id (base it).
Proof.
  destruct a, it; reflexivity.
Qed.

Lemma merge_id (p : Patch) : forall it, id (base (merge it p)) = id (base it).
Proof.
  unfold merge. induction p as [|a p IH]; intro it; simpl; [reflexivity|].
  rewrite IH. apply assign_id.
Qed.

Lemma findItem_id (i : string) (its : list Item) (it : Item) :
  findItem i its = Some it -> id (base it) = i.
Proof.
  intro H. apply find_some in H. apply String.eqb_eq, H.
Qed.

Lemma findItem_map (f : Item -> Item) (i : string) (its : list Item) :
  (forall it, id (base (f it)) = id (base it)) ->
  findItem i (map f its) = option_map f (findItem i its).
Proof.
  intro Hf. unfold findItem. induction its as [|it its IH]; simpl; [reflexivity|].
  rewrite Hf. destruct (String.eqb (id (base it)) i); [reflexivity|exact IH].
Qed.

Lemma commitUpdate_id (i : string) (p : Patch) (it : Item) :
  id (base (commitUpdate i p it)) = id (base it).
Proof.
  unfold commitUpdate. destruct (String.eqb _ _); [apply merge_id|reflexivity].
Qed.

Lemma updateSelected_exec (s : State) (i : string) (p : Patch) :
  selectedId s = Some i -> i <> "" ->
  exec (updateSelected p) s = mkState (map (commitUpdate i p) (items s)) (selectedId s).
Proof.
  intros Hsel Hne. unfold exec, updateSelected, bind, getSelectedId.
  rewrite Hsel. unfold truthyStr.
  apply String.eqb_neq in Hne. rewrite Hne. simpl. rewrite Hsel. reflexivity.
Qed.

Lemma commitTransform_exec (s : State) (node : KonvaNode) (it0 : Item) :
  selectedId s = Some (node_id node) ->
  node_id node <> "" ->
  findItem (node_id node) (items s) = Some it0 ->
  exec (commitTransform node) s
  = mkState (map (commitUpdate (node_id node) (commitPatch it0 (scaleX node) (scaleY node)))
               (items s))
            (selectedId s)
  /\ eval (commitTransform node) s = mkNode (node_id node) 1 1.
Proof.
  intros Hsel Hne Hf.
  pose proof (updateSelected_exec s (node_id node)) as Hu.
  unfold exec, eval, commitTransform, bind, getItems in *.
  rewrite Hf. destruct it0 as [t|q|c|l|o]; simpl commitPatch.
  1-3,5: match goal with
         | |- context [updateSelected ?p ?st] =>
             specialize (Hu p Hsel Hne); destruct (updateSelected p st) as [u s'];
             simpl in Hu; subst s'; split; reflexivity
         end.
  split; [|reflexivity]. simpl. destruct s as [its sel]; simpl. f_equal.
  rewrite <- (map_id its) at 1. apply map_ext. intro it.
  unfold commitUpdate, merge. simpl. now destruct (String.eqb _ _).
Qed.

Lemma commitTransform_found (s : State) (node : KonvaNode) (it0 : Item) :
  selectedId s = Some (node_id node) ->
  node_id node <> "" ->
  findItem (node_id node) (items s) = Some it0 ->
  findItem (node_id node) (items (exec (commitTransform node) s))
  = Some (merge it0 (commitPatch it0 (scaleX node) (scaleY node)))
  /\ selectedId (exec (commitTransform node) s) = Some (node_id node).
Proof.
  intros Hsel Hne Hf.
  destruct (commitTransform_exec s node it0 Hsel Hne Hf) as [E _].
  rewrite E. simpl. split; [|exact Hsel].
  rewrite findItem_map by apply commitUpdate_id.
  rewrite Hf. simpl. unfold commitUpdate.
  rewrite (findItem_id _ _ _ Hf), String.eqb_refl. reflexivity.
Qed.

(** * Further properties *)

(** ** Clamping *)

(** With ordered bounds, [clamp] returns a value inside the bounds, returns
    its argument (numerically) exactly when the argument is inside, is
    idempotent and is monotone. *)
Theorem clamp_saturates (v v' lo hi : Q) :
  lo <= hi ->
  v <= v' ->
  (lo <= clamp v lo hi /\ clamp v lo hi <= hi)
  /\ (clamp v lo hi == v <-> lo <= v /\ v <= hi)
  /\ clamp (clamp v lo hi) lo hi == clamp v lo hi
  /\ clamp v lo hi <= clamp v' lo hi.
Proof.
  intros Hb Hv.
  pose proof (clamp_range v lo hi Hb) as [A B].
  split; [split; assumption|]. split; [|split].
  - split.
    + intro E. rewrite <- E. split; assumption.
    + intros [H1 H2]. apply clamp_inside; assumption.
  - apply clamp_inside; assumption.
  - unfold clamp. apply Q.max_le_compat_l, Q.min_le_compat_l, Hv.
Qed.

(** The theorem at the bounds of the font size. *)
Lemma clamp_saturates_witness :
  3 <= 40 /\ 50 <= 60 /\ clamp 50 3 40 <= clamp 60 3 40.
Proof.
  assert (H1 : 3 <= 40) by (unfold Qle; simpl; lia).
  assert (H2 : 50 <= 60) by (unfold Qle; simpl; lia).
  split; [exact H1|]. split; [exact H2|].
  exact (proj2 (proj2 (proj2 (clamp_saturates 50 60 3 40 H1 H2)))).
Defined.

(** ** Escaping *)

Lemma escapeSpec_app (a b : string) :
  escapeSpec (a ++ b) = (escapeSpec a ++ escapeSpec b)%string.
Proof.
  induction a as [|c a IH]; simpl; [reflexivity|].
  now rewrite IH, sapp_assoc.
Qed.

Lemma slength_app (a b : string) :
  String.length (a ++ b) = (String.length a + String.length b)%nat.
Proof.
  induction a as [|c a IH]; simpl; [reflexivity|]. now rewrite IH.
Qed.

Lemma escapeChar_cases (c : ascii) :
  (Ascii.eqb c "&" || Ascii.eqb c "<" || Ascii.eqb c ">"
   || Ascii.eqb c dquote || Ascii.eqb c "'" = false
   /\ escapeChar c = String c EmptyString)
  \/ (Ascii.eqb c "&" || Ascii.eqb c "<" || Ascii.eqb c ">"
      || Ascii.eqb c dquote || Ascii.eqb c "'" = true
      /\ (2 <= String.length (escapeChar c))%nat).
Proof.
  unfold escapeChar.
  destruct (Ascii.eqb c "&"); [right; simpl; split; [reflexivity|lia]|].
  destruct (Ascii.eqb c "<"); [right; simpl; split; [reflexivity|lia]|].
  destruct (Ascii.eqb c ">"); [right; simpl; split; [reflexivity|lia]|].
  destruct (Ascii.eqb c dquote); [right; simpl; split; [reflexivity|lia]|].
  destruct (Ascii.eqb c "'"); [right; simpl; split; [reflexivity|lia]|].
  left. split; reflexivity.
Qed.

Lemma escapeSpec_length (s : string) :
  (String.length s <= String.length (escapeSpec s))%nat
  /\ (noReserved s = false -> (String.length s < String.length (escapeSpec s))%nat).
Proof.
  induction s as [|c s [IH1 IH2]]; simpl.
  - split; [lia|discriminate].
  - rewrite slength_app.
    destruct (escapeChar_cases c) as [[E1 E2]|[E1 E2]]; rewrite E1; simpl negb.
    + rewrite E2. simpl. split; [lia|]. intro H. apply IH2 in H. lia.
    + split; [lia|]. intros _. lia.
Qed.

(** [escapeXml] distributes over concatenation, never shortens its input,
    and returns its input unchanged exactly when the input holds none of the
    five reserved characters. *)
Theorem escapeXml_concat_and_clean (a b : string) :
  escapeXml (a ++ b) = (escapeXml a ++ escapeXml b)%string
  /\ (String.length a <= String.length (escapeXml a))%nat
  /\ (escapeXml a = a <-> noReserved a = true).
Proof.
  rewrite !escapeXml_single_pass. split; [apply escapeSpec_app|].
  split; [apply escapeSpec_length|]. split.
  - intro E. destruct (noReserved a) eqn:N; [reflexivity|].
    apply escapeSpec_length in N. rewrite E in N. lia.
  - induction a as [|c a IH]; simpl; [reflexivity|].
    intro H. apply andb_true_iff in H as [H1 H2]. apply negb_true_iff in H1.
    destruct (escapeChar_cases c) as [[E1 E2]|[E1 E2]]; [|congruence].
    rewrite E2, (IH H2). reflexivity.
Qed.

Lemma escapeChar_head (c : ascii) :
  exists rest : string,
    escapeChar c = String (if Ascii.eqb c "&" || Ascii.eqb c "<" || Ascii.eqb c ">"
                              || Ascii.eqb c dquote || Ascii.eqb c "'"
                           then "&"%char else c) rest.
Proof.
  unfold escapeChar.
  destruct (Ascii.eqb c "&"); [eexists; reflexivity|].
  destruct (Ascii.eqb c "<"); [eexists; reflexivity|].
  destruct (Ascii.eqb c ">"); [eexists; reflexivity|].
  destruct (Ascii.eqb c dquote); [eexists; reflexivity|].
  destruct (Ascii.eqb c "'"); [eexists; reflexivity|].
  eexists; reflexivity.
Qed.

Lemma escapeSpec_cons_inj (c d : ascii) (s t : string) :
  (escapeChar c ++ s = escapeChar d ++ t)%string -> c = d /\ s = t.
Proof.
  unfold escapeChar.
  destruct (Ascii.eqb_spec c "&") as [->|C1];
    [|destruct (Ascii.eqb_spec c "<") as [->|C2];
      [|destruct (Ascii.eqb_spec c ">") as [->|C3];
        [|destruct (Ascii.eqb_spec c dquote) as [->|C4];
          [|destruct (Ascii.eqb_spec c "'") as [->|C5]]]]];
  (destruct (Ascii.eqb_spec d "&") as [->|D1];
    [|destruct (Ascii.eqb_spec d "<") as [->|D2];
      [|destruct (Ascii.eqb_spec d ">") as [->|D3];
        [|destruct (Ascii.eqb_spec d dquote) as [->|D4];
          [|destruct (Ascii.eqb_spec d "'") as [->|D5]]]]]);
  simpl; intro H; inversion H; subst; try (split; reflexivity); try congruence;
  exfalso; auto.
Qed.

(** [escapeXml] is injective: two different texts never export to the same
    payload. *)
Theorem escapeXml_injective (s t : string) :
  escapeXml s = escapeXml t -> s = t.
Proof.
  rewrite !escapeXml_single_pass. revert t.
  induction s as [|c s IH]; intros [|d t] H; simpl in H.
  - reflexivity.
  - destruct (escapeChar_head d) as [rest E]. rewrite E in H. discriminate.
  - destruct (escapeChar_head c) as [rest E]. rewrite E in H. discriminate.
  - apply escapeSpec_cons_inj in H as [-> H]. f_equal. apply IH, H.
Qed.

(** The theorem at two spellings of the same payload. *)
Lemma escapeXml_injective_witness :
  escapeXml ("a<" ++ "b") = escapeXml ("a" ++ "<b") /\ ("a<" ++ "b" = "a" ++ "<b")%string.
Proof.
  assert (H : escapeXml ("a<" ++ "b") = escapeXml ("a" ++ "<b")) by reflexivity.
  split; [exact H|].
  exact (escapeXml_injective ("a<" ++ "b") ("a" ++ "<b") H).
Defined.

(** ** Font style buttons *)

(** The bold and italic buttons each flip their own flag and keep the other;
    pressing a button twice restores the style, and the two buttons commute. *)
Theorem fontStyle_toggles (f : FontStyle) :
  (includesBold (toggleBold f) = negb (includesBold f)
   /\ includesItalic (toggleBold f) = includesItalic f)
  /\ (includesItalic (toggleItalic f) = negb (includesItalic f)
      /\ includesBold (toggleItalic f) = includesBold f)
  /\ toggleBold (toggleBold f) = f
  /\ toggleItalic (toggleItalic f) = f
  /\ toggleBold (toggleItalic f) = toggleItalic (toggleBold f).
Proof.
  destruct f; repeat split.
Qed.

(** ** Lists of items *)

Lemma findItem_None (i : string) (its : list Item) :
  findItem i its = None <-> forall it, In it its -> String.eqb (id (base it)) i = false.
Proof.
  unfold findItem. split.
  - intros H it Hin. exact (find_none _ _ H it Hin).
  - induction its as [|a its IH]; intro H; simpl; [reflexivity|].
    rewrite (H a (or_introl eq_refl)). apply IH. intros it Hin. apply H. now right.
Qed.

Lemma findItem_app_fresh (i : string) (its : list Item) (it : Item) :
  findItem i its = None -> id (base it) = i -> findItem i (its ++ [it]) = Some it.
Proof.
  unfold findItem. intros H E. induction its as [|a its IH]; simpl in *.
  - now rewrite E, String.eqb_refl.
  - destruct (String.eqb (id (base a)) i); [discriminate|]. apply IH, H.
Qed.

Lemma filter_keep_all {A : Type} (f : A -> bool) (l : list A) :
  (forall a, In a l -> f a = true) -> filter f l = l.
Proof.
  induction l as [|a l IH]; intro H; simpl; [reflexivity|].
  rewrite (H a (or_introl eq_refl)). f_equal. apply IH. intros b Hb. apply H. now right.
Qed.

Lemma map_keep_all {A : Type} (f : A -> A) (l : list A) :
  (forall a, In a l -> f a = a) -> map f l = l.
Proof.
  induction l as [|a l IH]; intro H; simpl; [reflexivity|].
  rewrite (H a (or_introl eq_refl)). f_equal. apply IH. intros b Hb. apply H. now right.
Qed.

Lemma findItem_split (i : string) (its : list Item) (it : Item) :
  findItem i its = Some it ->
  exists pre post : list Item,
    its = (pre ++ it :: post)%list
    /\ findItem i pre = None
    /\ findIndex i its = Some (List.length pre).
Proof.
  unfold findItem. induction its as [|a its IH]; simpl; [discriminate|].
  destruct (String.eqb (id (base a)) i) eqn:E.
  - intro H. injection H as ->. exists [], its. repeat split.
  - intro H. destruct (IH H) as (pre & post & -> & Hn & Hi).
    exists (a :: pre), post. simpl. rewrite E, Hi. repeat split. exact Hn.
Qed.

Lemma findIndex_None (i : string) (its : list Item) :
  findItem i its = None -> findIndex i its = None.
Proof.
  unfold findItem. induction its as [|a its IH]; simpl; [reflexivity|].
  destruct (String.eqb (id (base a)) i); [discriminate|].
  intro H. now rewrite (IH H).
Qed.

Lemma splice1_middle (pre post : list Item) (it : Item) :
  splice1 (List.length pre) (pre ++ it :: post) = ([it], (pre ++ post)%list).
Proof.
  unfold splice1. induction pre as [|a pre IH]; simpl; [reflexivity|].
  injection IH as E1 E2. now rewrite E1, E2.
Qed.

Lemma state_eta (s : State) : mkState (items s) (selectedId s) = s.
Proof.
  now destruct s.
Qed.

Lemma truthyStr_Some (i : string) : i <> "" -> truthyStr (Some i) = true.
Proof.
  intro H. simpl. apply String.eqb_neq in H. now rewrite H.
Qed.

(** ** Deletion *)

Lemma deleteSelected_exec (s : State) (i : string) :
  selectedId s = Some i -> i <> "" ->
  exec deleteSelected s
  = mkState (filter (fun it => negb (String.eqb (id (base it)) i)) (items s)) None.
Proof.
  intros Hsel Hne. unfold exec, deleteSelected, bind, getSelectedId.
  rewrite Hsel, (truthyStr_Some i Hne). reflexivity.
Qed.

(** Deleting the selection removes every item that bears the selected id and
    no other item, keeps the order of the rest, and clears the selection. *)
Theorem deleteSelected_removes_selection (s : State) (i : string) :
  selectedId s = Some i ->
  i <> "" ->
  findItem i (items (exec deleteSelected s)) = None
  /\ (forall it, In it (items (exec deleteSelected s))
                 <-> In it (items s) /\ id (base it) <> i)
  /\ (exists removed : list Item,
        Permutation (items s) (removed ++ items (exec deleteSelected s))
        /\ Forall (fun it => id (base it) = i) removed)
  /\ selectedId (exec deleteSelected s) = None.
Proof.
  intros Hsel Hne. rewrite (deleteSelected_exec s i Hsel Hne). simpl.
  split; [|split; [|split; [|reflexivity]]].
  - apply findItem_None. intros it Hin. apply filter_In in Hin as [_ H].
    now apply negb_true_iff in H.
  - intro it. rewrite filter_In, negb_true_iff, String.eqb_neq. reflexivity.
  - exists (filter (fun it => String.eqb (id (base it)) i) (items s)). split.
    + induction (items s) as [|a l IH]; simpl; [constructor|].
      destruct (String.eqb (id (base a)) i); simpl.
      * now constructor.
      * now apply Permutation_cons_app.
    + apply Forall_forall. intros it Hin. apply filter_In in Hin as [_ H].
      now apply String.eqb_eq.
Qed.

(** The theorem on the scene that holds the default rectangle, selected. *)
Lemma deleteSelected_removes_selection_witness :
  selectedId sceneWithRect = Some "r1"
  /\ "r1" <> ""
  /\ findItem "r1" (items (exec deleteSelected sceneWithRect)) = None.
Proof.
  assert (Hne : "r1" <> "") by discriminate.
  split; [reflexivity|]. split; [exact Hne|].
  exact (proj1 (deleteSelected_removes_selection sceneWithRect "r1" eq_refl Hne)).
Defined.

(** Adding an item under a fresh identifier and deleting it at once gives
    the item list back, for each of the five add operations. *)
Theorem add_then_delete_restores_items (s : State) (i : string) (k : OrnamentKind) :
  findItem i (items s) = None ->
  i <> "" ->
  items (exec deleteSelected (exec (addText i) s)) = items s
  /\ items (exec deleteSelected (exec (addRect i) s)) = items s
  /\ items (exec deleteSelected (exec (addCircle i) s)) = items s
  /\ items (exec deleteSelected (exec (addLine i) s)) = items s
  /\ items (exec deleteSelected (exec (addOrnament i k) s)) = items s.
Proof.
  intros Hf Hne.
  assert (H : forall it, id (base it) = i ->
                items (exec deleteSelected (mkState (items s ++ [it]) (Some i))) = items s).
  { intros it Hid.
    rewrite (deleteSelected_exec (mkState (items s ++ [it]) (Some i)) i eq_refl Hne). simpl.
    rewrite filter_app. simpl. rewrite Hid, String.eqb_refl. simpl.
    rewrite app_nil_r. apply filter_keep_all. intros a Ha.
    apply negb_true_iff. exact (proj1 (findItem_None i (items s)) Hf a Ha). }
  repeat split; apply H; reflexivity.
Qed.

(** The theorem on the initial scene with the fresh identifier r1. *)
Lemma add_then_delete_restores_items_witness :
  findItem "r1" (items (initialState "t0")) = None
  /\ "r1" <> ""
  /\ items (exec deleteSelected (exec (addRect "r1") (initialState "t0")))
     = items (initialState "t0").
Proof.
  assert (Hne : "r1" <> "") by discriminate.
  split; [reflexivity|]. split; [exact Hne|].
  exact (proj1 (proj2 (add_then_delete_restores_items (initialState "t0") "r1" heart
                         eq_refl Hne))).
Defined.

(** ** Missing and stale selections *)

(** With nothing selected, delete, duplicate, reorder, attribute update and
    gesture commit all leave the page state as it was. *)
Theorem nothing_selected_noop (s : State) (i : string) (dir : Dir) (p : Patch)
    (node : KonvaNode) :
  selectedId s = None ->
  exec deleteSelected s = s
  /\ exec (duplicateSelected i) s = s
  /\ exec (moveSelected dir) s = s
  /\ exec (updateSelected p) s = s
  /\ exec (commitTransform node) s = s.
Proof.
  intro Hsel.
  assert (Hu : forall q, updateSelected q s = (tt, s)).
  { intro q. unfold updateSelected, bind, getSelectedId. now rewrite Hsel. }
  repeat split.
  - unfold exec, deleteSelected, bind, getSelectedId. now rewrite Hsel.
  - unfold exec, duplicateSelected, bind, getSelected, selectedItem. now rewrite Hsel.
  - unfold exec, moveSelected, bind, getSelectedId. now rewrite Hsel.
  - unfold exec. now rewrite Hu.
  - unfold exec, commitTransform, bind, getItems.
    destruct (findItem (node_id node) (items s)) as [[t|q|c|l|o]|];
      try rewrite Hu; reflexivity.
Qed.

(** The theorem on the initial scene, where nothing is selected. *)
Lemma nothing_selected_noop_witness :
  selectedId (initialState "t0") = None
  /\ exec deleteSelected (initialState "t0") = initialState "t0".
Proof.
  split; [reflexivity|].
  exact (proj1 (nothing_selected_noop (initialState "t0") "d1" front []
                  (mkNode "t0" 2 2) eq_refl)).
Defined.

(** When the selected identifier is borne by no item of the scene, attribute
    update, reorder and duplicate leave the page state as it was, and delete
    only clears the selection. *)
Theorem stale_selection_noop (s : State) (sel i : string) (dir : Dir) (p : Patch) :
  selectedId s = Some sel ->
  findItem sel (items s) = None ->
  exec (updateSelected p) s = s
  /\ exec (moveSelected dir) s = s
  /\ exec (duplicateSelected i) s = s
  /\ exec deleteSelected s = mkState (items s) (if String.eqb sel "" then Some sel else None).
Proof.
  intros Hsel Hf.
  pose proof (proj1 (findItem_None sel (items s)) Hf) as Hno.
  destruct (String.eqb_spec sel "") as [E|Hne].
  - assert (T : truthyStr (Some sel) = false) by (subst sel; reflexivity).
    repeat split.
    + unfold exec, updateSelected, bind, getSelectedId. now rewrite Hsel, T.
    + unfold exec, moveSelected, bind, getSelectedId. now rewrite Hsel, T.
    + unfold exec, duplicateSelected, bind, getSelected, selectedItem. now rewrite Hsel, Hf.
    + unfold exec, deleteSelected, bind, getSelectedId. rewrite Hsel, T. simpl.
      rewrite <- Hsel. apply eq_sym, state_eta.
  - repeat split.
    + rewrite (updateSelected_exec s sel p Hsel Hne).
      rewrite map_keep_all; [apply state_eta|].
      intros it Hin. unfold commitUpdate. now rewrite (Hno it Hin).
    + unfold exec, moveSelected, bind, getSelectedId, setItems.
      rewrite Hsel, (truthyStr_Some sel Hne). simpl.
      rewrite (findIndex_None sel (items s) Hf), Hsel. rewrite <- Hsel. apply state_eta.
    + unfold exec, duplicateSelected, bind, getSelected, selectedItem. now rewrite Hsel, Hf.
    + rewrite (deleteSelected_exec s sel Hsel Hne). f_equal.
      apply filter_keep_all. intros it Hin. now rewrite (Hno it Hin).
Qed.

(** The theorem on the initial scene with a selection that names no item. *)
Lemma stale_selection_noop_witness :
  selectedId (mkState [initialItem "t0"] (Some "gone")) = Some "gone"
  /\ findItem "gone" [initialItem "t0"] = None
  /\ exec (updateSelected [SetText "x"]) (mkState [initialItem "t0"] (Some "gone"))
     = mkState [initialItem "t0"] (Some "gone").
Proof.
  split; [reflexivity|]. split; [reflexivity|].
  exact (proj1 (stale_selection_noop (mkState [initialItem "t0"] (Some "gone")) "gone" "d1"
                  front [SetText "x"] eq_refl eq_refl)).
Defined.

(** ** Duplication *)

(** Duplicating the selected item under a fresh identifier appends one copy
    at the end of the item list and selects it; the copy has the type
    and the sizes of the original and its anchor 5 mm further on both axes;
    the copy of a line keeps the second endpoint of the original. *)
Theorem duplicateSelected_appends_copy (s : State) (i : string) (it : Item) :
  selectedItem s = Some it ->
  findItem i (items s) = None ->
  items (exec (duplicateSelected i) s) = (items s ++ [duplicateOf i it])%list
  /\ selectedId (exec (duplicateSelected i) s) = Some i
  /\ selectedItem (exec (duplicateSelected i) s) = Some (duplicateOf i it)
  /\ (type (duplicateOf i it) = type it
      /\ sizedAttrs (duplicateOf i it) = sizedAttrs it
      /\ x (base (duplicateOf i it)) = x (base it) + 5
      /\ y (base (duplicateOf i it)) = y (base it) + 5)
  /\ match it with
     | ILine l =>
         duplicateOf i it
         = ILine (mkLine (mkBase i (x (line_base l) + 5) (y (line_base l) + 5)
                            (rotation (line_base l)) (stroke (line_base l))
                            (strokeWidthMm (line_base l)))
                    (x2 l) (y2 l))
     | _ => True
     end.
Proof.
  intros Hsel Hf.
  assert (Hid : id (base (duplicateOf i it)) = i) by (destruct it; reflexivity).
  assert (E : exec (duplicateSelected i) s
              = mkState (items s ++ [duplicateOf i it]) (Some i)).
  { unfold exec, duplicateSelected, bind, getSelected. rewrite Hsel. simpl.
    now rewrite Hid. }
  rewrite E. simpl. split; [reflexivity|]. split; [reflexivity|]. split.
  - unfold selectedItem. simpl. apply findItem_app_fresh; assumption.
  - split; destruct it; simpl; auto.
Qed.

(** The theorem on the scene that holds the default line, selected. *)
Lemma duplicateSelected_appends_copy_witness :
  selectedItem sceneWithLine = Some (newLine "l1")
  /\ findItem "l2" (items sceneWithLine) = None
  /\ items (exec (duplicateSelected "l2") sceneWithLine)
     = (items sceneWithLine ++ [duplicateOf "l2" (newLine "l1")])%list.
Proof.
  split; [reflexivity|]. split; [reflexivity|].
  exact (proj1 (duplicateSelected_appends_copy sceneWithLine "l2" (newLine "l1")
                  eq_refl eq_refl)).
Defined.

(** ** Reordering *)

(** Moving the selected item takes its first occurrence out of the list and
    puts it last (front) or first (back); the other items keep their order,
    nothing is lost or added, and the selection stays. *)
Theorem moveSelected_reorders (s : State) (i : string) (it : Item) (dir : Dir) :
  selectedId s = Some i ->
  i <> "" ->
  findItem i (items s) = Some it ->
  (exists pre post : list Item,
     items s = (pre ++ it :: post)%list
     /\ findItem i pre = None
     /\ items (exec (moveSelected dir) s)
        = match dir with
          | front => (pre ++ post ++ [it])%list
          | back => it :: (pre ++ post)%list
          end)
  /\ Permutation (items (exec (moveSelected dir) s)) (items s)
  /\ selectedId (exec (moveSelected dir) s) = Some i.
Proof.
  intros Hsel Hne Hf.
  destruct (findItem_split i (items s) it Hf) as (pre & post & Hs & Hn & Hi).
  assert (E : items (exec (moveSelected dir) s)
              = match dir with
                | front => (pre ++ post ++ [it])%list
                | back => it :: (pre ++ post)%list
                end
              /\ selectedId (exec (moveSelected dir) s) = Some i).
  { unfold exec, moveSelected, bind, getSelectedId, setItems.
    rewrite Hsel, (truthyStr_Some i Hne). cbn [negb snd orElse items selectedId].
    rewrite Hi, Hs, splice1_middle.
    split; [|exact Hsel]. destruct dir; [now rewrite <- app_assoc|reflexivity]. }
  destruct E as [E1 E2]. split; [|split; [|exact E2]].
  - exists pre, post. repeat split; assumption.
  - rewrite E1, Hs. destruct dir.
    + rewrite app_assoc. apply Permutation_trans with (it :: pre ++ post)%list.
      * apply Permutation_sym, Permutation_cons_append.
      * apply Permutation_middle.
    + apply Permutation_middle.
Qed.

(** The theorem on the scene that holds the default rectangle, selected. *)
Lemma moveSelected_reorders_witness :
  selectedId sceneWithRect = Some "r1"
  /\ "r1" <> ""
  /\ findItem "r1" (items sceneWithRect) = Some (newRect "r1")
  /\ Permutation (items (exec (moveSelected back) sceneWithRect)) (items sceneWithRect).
Proof.
  assert (Hne : "r1" <> "") by discriminate.
  split; [reflexivity|]. split; [exact Hne|]. split; [reflexivity|].
  exact (proj1 (proj2 (moveSelected_reorders sceneWithRect "r1" (newRect "r1") back
                         eq_refl Hne eq_refl))).
Defined.

(** ** Dragging *)

Lemma setBase_frame (f : BaseItem -> BaseItem) (it : Item) :
  base (setBase f it) = f (base it)
  /\ type (setBase f it) = type it
  /\ sizedAttrs (setBase f it) = sizedAttrs it.
Proof.
  destruct it; repeat split.
Qed.

(** ** Gesture commit: what it leaves alone *)

Lemma commitTransform_as_update (s : State) (node : KonvaNode) :
  exec (commitTransform node) s
  = match findItem (node_id node) (items s) with
    | None => s
    | Some (ILine _) => s
    | Some item => exec (updateSelected (commitPatch item (scaleX node) (scaleY node))) s
    end.
Proof.
  unfold exec, commitTransform, bind, getItems.
  destruct (findItem (node_id node) (items s)) as [[t|q|c|l|o]|]; simpl;
    try reflexivity;
    match goal with
    | |- context [updateSelected ?p ?st] => now destruct (updateSelected p st)
    end.
Qed.

Lemma merge_commitPatch_frame (item it : Item) (sX sY : Q) :
  base (merge it (commitPatch item sX sY)) = base it
  /\ type (merge it (commitPatch item sX sY)) = type it.
Proof.
  destruct item, it; split; reflexivity.
Qed.

Lemma updateSelected_items (s : State) (p : Patch) :
  exec (updateSelected p) s = s
  \/ exists i : string,
       exec (updateSelected p) s = mkState (map (commitUpdate i p) (items s)) (selectedId s).
Proof.
  unfold exec, updateSelected, bind, getSelectedId.
  destruct (truthyStr (selectedId s)); simpl; [right|left; reflexivity].
  eexists. reflexivity.
Qed.

(** ** Validation verdicts *)

Lemma findingsOf_nil (numStr : Q -> string) (it : Item) :
  findingsOf numStr it = [] <-> itemValid it = true.
Proof.
  unfold findingsOf, containmentFinding, fontFinding, itemValid.
  destruct (withinEngraveArea it); simpl.
  - destruct it; try (split; reflexivity).
    destruct (Qlt_bool _ _); simpl; split; intro; try reflexivity; discriminate.
  - split; discriminate.
Qed.

Lemma validateAll_ok_forallb (numStr : Q -> string) (s : State) :
  ok (eval (validateAll numStr) s) = forallb itemValid (items s).
Proof.
  unfold eval, validateAll, bind, getItems, ret. simpl.
  rewrite validate_loop_findings. simpl.
  induction (items s) as [|it its IH]; simpl; [reflexivity|].
  destruct (itemValid it) eqn:E.
  - apply (findingsOf_nil numStr) in E. rewrite E. simpl. exact IH.
  - destruct (findingsOf numStr it) eqn:F.
    + apply findingsOf_nil in F. congruence.
    + reflexivity.
Qed.

Lemma itemValid_iff (it : Item) :
  itemValid it = true
  <-> withinEngraveArea it = true
      /\ match it with
         | IText t => minFontMm PRODUCT <= fontSizeMm t
         | _ => True
         end.
Proof.
  unfold itemValid. rewrite andb_true_iff.
  destruct it; try tauto.
  unfold Qlt_bool. rewrite negb_involutive, Qle_bool_iff. reflexivity.
Qed.

(** [validateAll] reports ok exactly when every item of the scene passes the
    containment check and every text item has at least the minimum font
    size. *)
Theorem validateAll_ok_iff_all_valid (numStr : Q -> string) (s : State) :
  ok (eval (validateAll numStr) s) = true
  <-> forall it, In it (items s) ->
        withinEngraveArea it = true
        /\ match it with
           | IText t => minFontMm PRODUCT <= fontSizeMm t
           | _ => True
           end.
Proof.
  rewrite validateAll_ok_forallb, forallb_forall.
  split; intros H it Hin; apply itemValid_iff, H, Hin.
Qed.

Lemma moveSelected_items (s : State) (dir : Dir) :
  exec (moveSelected dir) s = s
  \/ exists (pre post : list Item) (it : Item),
       items s = (pre ++ it :: post)%list
       /\ exec (moveSelected dir) s
          = mkState match dir with
                    | front => (pre ++ post ++ [it])%list
                    | back => it :: (pre ++ post)%list
                    end (selectedId s).
Proof.
  unfold exec, moveSelected, bind, getSelectedId, setItems.
  destruct (truthyStr (selectedId s)); [|left; reflexivity].
  cbn [negb snd].
  destruct (findItem (orElse (selectedId s) "") (items s)) as [it|] eqn:Hf.
  - destruct (findItem_split _ _ _ Hf) as (pre & post & Hs & _ & Hi).
    right. exists pre, post, it. split; [exact Hs|].
    rewrite Hi. rewrite Hs at 1. rewrite splice1_middle.
    destruct dir; [now rewrite <- app_assoc|reflexivity].
  - left. rewrite (findIndex_None _ _ Hf). apply state_eta.
Qed.

Lemma moveSelected_perm (s : State) (dir : Dir) :
  Permutation (items (exec (moveSelected dir) s)) (items s).
Proof.
  destruct (moveSelected_items s dir) as [E|(pre & post & it & Hs & E)]; rewrite E.
  - reflexivity.
  - simpl. rewrite Hs. destruct dir.
    + rewrite app_assoc. apply Permutation_trans with (it :: pre ++ post)%list.
      * apply Permutation_sym, Permutation_cons_append.
      * apply Permutation_middle.
    + apply Permutation_middle.
Qed.

Lemma deleteSelected_items (s : State) :
  exec deleteSelected s = s
  \/ exists i : string,
       exec deleteSelected s
       = mkState (filter (fun it => negb (String.eqb (id (base it)) i)) (items s)) None.
Proof.
  unfold exec, deleteSelected, bind, getSelectedId.
  destruct (truthyStr (selectedId s)); [right|left; reflexivity].
  eexists. reflexivity.
Qed.

Lemma forallb_perm {A : Type} (f : A -> bool) (l l' : list A) :
  Permutation l l' -> forallb f l = forallb f l'.
Proof.
  induction 1 as [|a l l' _ IH|a b l|l l' l'' _ IH1 _ IH2]; simpl.
  - reflexivity.
  - now rewrite IH.
  - destruct (f a), (f b); reflexivity.
  - congruence.
Qed.

Lemma forallb_filter {A : Type} (f g : A -> bool) (l : list A) :
  forallb f l = true -> forallb f (filter g l) = true.
Proof.
  induction l as [|a l IH]; simpl; [reflexivity|].
  intro H. apply andb_true_iff in H as [H1 H2].
  destruct (g a); simpl; [rewrite H1|]; auto.
Qed.

(** Adding a default item and reordering never change the verdict of the
    validator, and deleting never turns a valid scene into an invalid one. *)
Theorem validity_kept_by_add_move_delete (numStr : Q -> string) (s : State) (i : string)
    (k : OrnamentKind) (dir : Dir) :
  ok (eval (validateAll numStr) (exec (addText i) s)) = ok (eval (validateAll numStr) s)
  /\ ok (eval (validateAll numStr) (exec (addRect i) s)) = ok (eval (validateAll numStr) s)
  /\ ok (eval (validateAll numStr) (exec (addCircle i) s)) = ok (eval (validateAll numStr) s)
  /\ ok (eval (validateAll numStr) (exec (addLine i) s)) = ok (eval (validateAll numStr) s)
  /\ ok (eval (validateAll numStr) (exec (addOrnament i k) s))
     = ok (eval (validateAll numStr) s)
  /\ ok (eval (validateAll numStr) (exec (moveSelected dir) s))
     = ok (eval (validateAll numStr) s)
  /\ (ok (eval (validateAll numStr) s) = true
      -> ok (eval (validateAll numStr) (exec deleteSelected s)) = true).
Proof.
  rewrite !validateAll_ok_forallb.
  assert (A : forall it sel, itemValid it = true ->
                forallb itemValid (items (mkState (items s ++ [it]) sel))
                = forallb itemValid (items s)).
  { intros it sel V. simpl. rewrite forallb_app. simpl. rewrite V.
    now rewrite !andb_true_r. }
  repeat split; try (apply A; reflexivity).
  - apply forallb_perm, moveSelected_perm.
  - intro H. destruct (deleteSelected_items s) as [E|[j E]]; rewrite E; [exact H|].
    simpl. apply forallb_filter, H.
Qed.

(** ** The exported document *)

Lemma exportPush_total (numStr : Q -> string) (it : Item) :
  exists p : string,
    forall parts, exportPush numStr parts it = Some (parts ++ [p])%list.
Proof.
  destruct it as [t|q|c|l|o]; try (eexists; intro; reflexivity).
  destruct (ornament_def_found (kind o)) as (def & Hf & _).
  unfold exportPush. rewrite Hf. eexists; intro; reflexivity.
Qed.

Lemma exportParts_total (numStr : Q -> string) (its : list Item) :
  exists ps : list string,
    Forall2 (fun it p => exportPush numStr [] it = Some [p]) its ps
    /\ forall acc, exportParts numStr acc its = Some (acc ++ ps)%list.
Proof.
  induction its as [|it its (ps & F & IH)].
  - exists []. split; [constructor|]. intro acc. simpl. now rewrite app_nil_r.
  - destruct (exportPush_total numStr it) as [p Hp].
    exists (p :: ps). split.
    + constructor; [apply (Hp [])|exact F].
    + intro acc. simpl. rewrite Hp, IH, <- app_assoc. reflexivity.
Qed.

Lemma trimEnd_app (a t : string) :
  trimEnd t <> "" -> trimEnd (a ++ t) = (a ++ trimEnd t)%string.
Proof.
  intro H. induction a as [|c a IH]; simpl; [reflexivity|].
  rewrite IH.
  assert (N : String.eqb (a ++ trimEnd t) "" = false).
  { apply String.eqb_neq. destruct a; simpl; [exact H|discriminate]. }
  rewrite N, andb_false_r. reflexivity.
Qed.

Lemma trim_document (numStr : Q -> string) (parts : list string) :
  trim (NL ++ svgDocument numStr parts) = svgDocument numStr parts.
Proof.
  unfold trim.
  assert (S1 : trimStart (NL ++ svgDocument numStr parts) = svgDocument numStr parts)
    by reflexivity.
  rewrite S1. unfold svgDocument. cbv zeta.
  rewrite <- !sapp_assoc.
  rewrite trimEnd_app; [reflexivity|discriminate].
Qed.

(** [exportSvgMm] succeeds on every scene and leaves the state as it was:
    the document is the svg wrapper, without leading or trailing white space,
    around one primitive per item, in scene order. *)
Theorem exportSvgMm_total (numStr : Q -> string) (s : State) :
  exists parts : list string,
    Forall2 (fun it p => exportPush numStr [] it = Some [p]) (items s) parts
    /\ List.length parts = List.length (items s)
    /\ eval (exportSvgMm numStr) s = Some (svgDocument numStr parts)
    /\ trim (svgDocument numStr parts) = svgDocument numStr parts
    /\ exec (exportSvgMm numStr) s = s.
Proof.
  destruct (exportParts_total numStr (items s)) as (ps & F & E).
  exists ps. split; [exact F|]. split; [symmetry; apply (Forall2_length F)|].
  specialize (E []). simpl in E.
  assert (T : trim (svgDocument numStr ps) = svgDocument numStr ps).
  { unfold trim.
    assert (S1 : trimStart (svgDocument numStr ps) = svgDocument numStr ps) by reflexivity.
    rewrite S1. unfold svgDocument. cbv zeta. rewrite <- !sapp_assoc.
    rewrite trimEnd_app; [reflexivity|discriminate]. }
  split; [|split; [exact T|]].
  - unfold eval, exportSvgMm, bind, getItems, ret. cbv beta iota. rewrite E.
    cbn [fst]. f_equal. apply trim_document.
  - unfold exec, exportSvgMm, bind, getItems, ret. cbv beta iota. rewrite E. reflexivity.
Qed.

(** [handleExport] leaves the state as it was and never fails: it refuses,
    with an alert that lists every problem, exactly when the validator does
    not report ok, and otherwise hands out the document of [exportSvgMm]. *)
Theorem handleExport_gated (numStr : Q -> string) (s : State) :
  exec (handleExport numStr) s = s
  /\ match eval (handleExport numStr) s with
     | Refused alert =>
         ok (eval (validateAll numStr) s) = false
         /\ alert = ("Nejde exportovat:" ++ NL ++ "- "
                     ++ String.concat (NL ++ "- ") (problems (eval (validateAll numStr) s)))%string
     | Exported doc =>
         ok (eval (validateAll numStr) s) = true
         /\ eval (exportSvgMm numStr) s = Some doc
     | Thrown => False
     end.
Proof.
  destruct (exportParts_total numStr (items s)) as (ps & _ & E).
  specialize (E []). simpl in E.
  assert (V : validateAll numStr s = (eval (validateAll numStr) s, s)) by reflexivity.
  assert (X : exists doc, exportSvgMm numStr s = (Some doc, s)).
  { unfold exportSvgMm, bind, getItems, ret. cbv beta iota. rewrite E.
    eexists. reflexivity. }
  destruct X as [doc X].
  unfold exec, eval at 1, handleExport, bind. rewrite V. cbv beta iota.
  destruct (ok (eval (validateAll numStr) s)); cbn [negb].
  - rewrite X. cbv beta iota. unfold ret, eval. rewrite X. repeat split.
  - unfold ret. cbn [fst snd]. repeat split.
Qed.

(** ** Invariants of the reachable scenes *)

Lemma assign_in_range (it : Item) (a : Assign) :
  assignInRange a ->
  inCommitRange it /\ strokeWidthOk it ->
  inCommitRange (assign it a) /\ strokeWidthOk (assign it a).
Proof.
  destruct a, it; unfold strokeWidthOk; simpl; tauto.
Qed.

Lemma merge_in_range (p : Patch) :
  Forall assignInRange p ->
  forall it, inCommitRange it /\ strokeWidthOk it ->
             inCommitRange (merge it p) /\ strokeWidthOk (merge it p).
Proof.
  unfold merge. induction 1 as [|a p Ha _ IH]; intros it H; simpl; [exact H|].
  apply IH, assign_in_range; assumption.
Qed.

Lemma commitPatch_in_range (item : Item) (sX sY : Q) :
  Forall assignInRange (commitPatch item sX sY).
Proof.
  destruct item; simpl; repeat constructor;
    first [apply clamp_lower | apply clamp_upper; qconst].
Qed.

Lemma editorAssign_in_range (a : Assign) : editorAssign a -> assignInRange a.
Proof.
  destruct 1; simpl; try exact I; split;
    first [ apply clamp_lower
          | apply clamp_upper; qconst
          | apply Qle_trans with (clamp v 0.1 5); [|apply clamp_upper]; qconst
          | idtac ].
  apply Qle_trans with 0.1; [qconst|apply clamp_lower].
Qed.

Lemma ids_map (f : Item -> Item) (its : list Item) :
  (forall it, id (base (f it)) = id (base it)) ->
  map (fun it => id (base it)) (map f its) = map (fun it => id (base it)) its.
Proof.
  intro H. rewrite map_map. apply map_ext, H.
Qed.

Lemma sceneInv_map (f : Item -> Item) (its : list Item) :
  (forall it, id (base (f it)) = id (base it)) ->
  (forall it, inCommitRange it /\ strokeWidthOk it ->
              inCommitRange (f it) /\ strokeWidthOk (f it)) ->
  sceneInv its -> sceneInv (map f its).
Proof.
  intros Hid Hr [F N]. split.
  - apply Forall_map. eapply Forall_impl; [|exact F]. exact Hr.
  - now rewrite ids_map.
Qed.

Lemma NoDup_map_filter {A B : Type} (f : A -> B) (g : A -> bool) (l : list A) :
  NoDup (map f l) -> NoDup (map f (filter g l)).
Proof.
  induction l as [|a l IH]; simpl; intro H; [constructor|].
  inversion H as [|? ? Hn Hd]; subst.
  destruct (g a); simpl; [constructor|]; auto.
  intro Hin. apply Hn. apply in_map_iff in Hin as (b & E & Hb).
  apply in_map_iff. exists b. split; [exact E|]. now apply filter_In in Hb.
Qed.

Lemma sceneInv_filter (g : Item -> bool) (its : list Item) :
  sceneInv its -> sceneInv (filter g its).
Proof.
  intros [F N]. split.
  - apply Forall_forall. intros it Hin. apply filter_In in Hin as [Hin _].
    exact (proj1 (Forall_forall _ _) F it Hin).
  - apply NoDup_map_filter, N.
Qed.

Lemma sceneInv_perm (its its' : list Item) :
  Permutation its its' -> sceneInv its -> sceneInv its'.
Proof.
  intros P [F N]. split.
  - eapply Permutation_Forall; eassumption.
  - eapply Permutation_NoDup; [|exact N]. now apply Permutation_map.
Qed.

Lemma sceneInv_add (its : list Item) (it : Item) :
  findItem (id (base it)) its = None ->
  inCommitRange it /\ strokeWidthOk it ->
  sceneInv its -> sceneInv (its ++ [it]).
Proof.
  intros Hf Hr [F N]. split.
  - apply Forall_app. split; [exact F|]. now constructor.
  - rewrite map_app. simpl.
    apply (Permutation_NoDup (Permutation_cons_append _ _)).
    constructor; [|exact N].
    intro Hin. apply in_map_iff in Hin as (b & E & Hb).
    pose proof (proj1 (findItem_None _ _) Hf b Hb) as Hne.
    apply String.eqb_neq in Hne. contradiction.
Qed.

Lemma new_items_in_range (i : string) (k : OrnamentKind) :
  Forall (fun it => id (base it) = i /\ inCommitRange it /\ strokeWidthOk it)
    [initialItem i; newText i; newRect i; newCircle i; newLine i; newOrnament i k].
Proof.
  repeat constructor; unfold strokeWidthOk; simpl; try qconst.
Qed.

Lemma duplicateOf_in_range (i : string) (it : Item) :
  inCommitRange it /\ strokeWidthOk it ->
  inCommitRange (duplicateOf i it) /\ strokeWidthOk (duplicateOf i it).
Proof.
  destruct it; unfold strokeWidthOk; simpl; tauto.
Qed.

Lemma updateSelected_inv (s : State) (p : Patch) :
  Forall assignInRange p ->
  sceneInv (items s) -> sceneInv (items (exec (updateSelected p) s)).
Proof.
  intros Hp H. destruct (updateSelected_items s p) as [E|[i E]]; rewrite E; [exact H|].
  simpl. apply sceneInv_map; [apply commitUpdate_id| |exact H].
  intros it Hr. unfold commitUpdate. destruct (String.eqb _ _); [|exact Hr].
  apply merge_in_range; assumption.
Qed.

Lemma step_inv (s s' : State) : step s s' -> sceneInv (items s) -> sceneInv (items s').
Proof.
  intros St H.
  destruct St as [s i Hf|s i Hf|s i Hf|s i Hf|s i k Hf|s|s i Hf|s dir|s sel|s a Ha
                 |s i nodeX nodeY|s node].
  1-5: simpl; apply sceneInv_add; try exact H; try exact Hf;
       pose proof (new_items_in_range i heart) as F;
       repeat match goal with
              | F : Forall _ (_ :: _) |- _ => inversion F; clear F; subst
              end; tauto.
  - destruct (deleteSelected_items s) as [E|[j E]]; rewrite E; [exact H|].
    simpl. apply sceneInv_filter, H.
  - unfold exec, duplicateSelected, bind, getSelected.
    destruct (selectedItem s) as [it|] eqn:Hsel; [|exact H].
    simpl. apply sceneInv_add; [|apply duplicateOf_in_range|exact H].
    + replace (id (base (duplicateOf i it))) with i by (now destruct it). exact Hf.
    + unfold selectedItem in Hsel. destruct (selectedId s); [|discriminate].
      apply find_some in Hsel as [Hin _].
      exact (proj1 (Forall_forall _ _) (proj1 H) it Hin).
  - apply (sceneInv_perm (items s)); [apply Permutation_sym, moveSelected_perm|exact H].
  - exact H.
  - apply updateSelected_inv; [|exact H]. constructor; [|constructor].
    apply editorAssign_in_range, Ha.
  - unfold exec, onDragEnd, setItems. simpl. apply sceneInv_map; [| |exact H].
    + intro it. destruct (String.eqb _ _); [|reflexivity]. now destruct it.
    + intros it Hr. destruct (String.eqb _ _); [|exact Hr].
      destruct it; unfold strokeWidthOk in *; simpl in *; exact Hr.
  - rewrite commitTransform_as_update.
    destruct (findItem (node_id node) (items s)) as [item|]; [|exact H].
    destruct item; try exact H; apply updateSelected_inv;
      try exact H; apply commitPatch_in_range.
Qed.

Lemma reachable_sceneInv (s : State) : reachable s -> sceneInv (items s).
Proof.
  induction 1 as [i|s s' _ IH St].
  - split; [|repeat constructor; simpl; tauto].
    repeat constructor; unfold strokeWidthOk; simpl; qconst.
  - exact (step_inv s s' St IH).
Qed.

Lemma reachable_sceneWithRect : reachable sceneWithRect.
Proof.
  apply (reach_step (initialState "t0")); [apply reach_init|].
  apply (step_addRect (initialState "t0") "r1"). reflexivity.
Qed.

(** In every scene the page can reach from its initial state, the sizes of
    every item lie in the interval their editors clamp to (font size in
    [3, 40], width, height and radius in [1, 500], ornament scale in
    [5, 120]), every stroke width lies in [0, 5], and no two items bear the
    same identifier. *)
Theorem reachable_scene_invariants (s : State) :
  reachable s ->
  Forall (fun it => inCommitRange it /\ strokeWidthOk it) (items s)
  /\ NoDup (map (fun it => id (base it)) (items s)).
Proof.
  apply reachable_sceneInv.
Qed.

(** The theorem on the scene reached by adding the default rectangle. *)
Lemma reachable_scene_invariants_witness :
  reachable sceneWithRect
  /\ NoDup (map (fun it => id (base it)) (items sceneWithRect)).
Proof.
  split; [exact reachable_sceneWithRect|].
  exact (proj2 (reachable_scene_invariants sceneWithRect reachable_sceneWithRect)).
Defined.

Lemma NoDup_findItem (its : list Item) (it : Item) :
  NoDup (map (fun a => id (base a)) its) -> In it its ->
  findItem (id (base it)) its = Some it.
Proof.
  unfold findItem. induction its as [|a its IH]; simpl; intros N Hin; [contradiction|].
  inversion N as [|? ? Hn Hd]; subst. destruct Hin as [->|Hin].
  - now rewrite String.eqb_refl.
  - destruct (String.eqb_spec (id (base a)) (id (base it))) as [E|_]; [|now apply IH].
    exfalso. apply Hn. rewrite E. apply in_map_iff. now exists it.
Qed.

Lemma inCommitRange_sizes_nonneg (it : Item) : inCommitRange it -> sizes_nonneg it.
Proof.
  destruct it; simpl; try tauto; intros; repeat split; lra.
Qed.

Lemma inCommitRange_fontFinding (numStr : Q -> string) (it : Item) :
  inCommitRange it -> fontFinding numStr it = [].
Proof.
  destruct it; simpl; try reflexivity. intros [H _].
  unfold Qlt_bool. apply Qle_bool_iff in H. simpl in H. now rewrite H.
Qed.

(** In a reachable scene the containment check agrees with the four-sided
    containment rule on every item, the validator never reports a font that
    is too small, so its problems are the containment findings alone, and
    every item is the one its identifier finds. *)
Theorem reachable_scene_validation (numStr : Q -> string) (s : State) :
  reachable s ->
  (forall it, In it (items s) ->
     (withinEngraveArea it = true <-> spec_contained it)
     /\ findItem (id (base it)) (items s) = Some it)
  /\ problems (eval (validateAll numStr) s) = flat_map containmentFinding (items s).
Proof.
  intro R. destruct (reachable_sceneInv s R) as [F N].
  pose proof (proj1 (Forall_forall _ _) F) as Hall. split.
  - intros it Hin. split; [|apply NoDup_findItem; assumption].
    rewrite withinEngraveArea_code.
    apply code_contained_spec, inCommitRange_sizes_nonneg, (Hall it Hin).
  - unfold eval, validateAll, bind, getItems, ret. simpl.
    rewrite validate_loop_findings. simpl.
    clear N R. induction (items s) as [|a l IH]; simpl; [reflexivity|].
    inversion F as [|? ? [Ha _] Fl]; subst.
    unfold findingsOf at 1. rewrite (inCommitRange_fontFinding numStr a Ha), app_nil_r.
    f_equal. apply IH; [exact Fl|]. intros it Hin. apply Hall. now right.
Qed.

(** The theorem on the scene reached by adding the default rectangle. *)
Lemma reachable_scene_validation_witness :
  reachable sceneWithRect
  /\ problems (eval (validateAll decStr) sceneWithRect)
     = flat_map containmentFinding (items sceneWithRect).
Proof.
  split; [exact reachable_sceneWithRect|].
  exact (proj2 (reachable_scene_validation decStr sceneWithRect reachable_sceneWithRect)).
Defined.

(** ** Attribute updates: what they leave alone *)

Lemma assign_frame (it : Item) (a : Assign) :
  id (base (assign it a)) = id (base it)
  /\ x (base (assign it a)) = x (base it)
  /\ y (base (assign it a)) = y (base it)
  /\ rotation (base (assign it a)) = rotation (base it)
  /\ type (assign it a) = type it.
Proof.
  destruct a, it; repeat split.
Qed.

Lemma merge_frame (p : Patch) :
  forall it,
    id (base (merge it p)) = id (base it)
    /\ x (base (merge it p)) = x (base it)
    /\ y (base (merge it p)) = y (base it)
    /\ rotation (base (merge it p)) = rotation (base it)
    /\ type (merge it p) = type it.
Proof.
  unfold merge. induction p as [|a p IH]; intro it; simpl; [repeat split|].
  destruct (IH (assign it a)) as (A & B & C & D & E).
  destruct (assign_frame it a) as (A' & B' & C' & D' & E').
  repeat split; congruence.
Qed.

(** ** Rotation is never stored *)

Lemma step_keeps_no_rotation (s s' : State) :
  step s s' ->
  Forall (fun it => rotation (base it) = None) (items s) ->
  Forall (fun it => rotation (base it) = None) (items s').
Proof.
  intros St H.
  assert (U : forall q, Forall (fun it => rotation (base it) = None)
                          (items (exec (updateSelected q) s))).
  { intro q. destruct (updateSelected_items s q) as [E|[i E]]; rewrite E; [exact H|].
    simpl. apply Forall_map. eapply Forall_impl; [|exact H].
    intros it Hr. unfold commitUpdate. destruct (String.eqb _ _); [|exact Hr].
    destruct (merge_frame q it) as (_ & _ & _ & D & _). congruence. }
  destruct St as [s i Hf|s i Hf|s i Hf|s i Hf|s i k Hf|s|s i Hf|s dir|s sel|s a Ha
                 |s i nodeX nodeY|s node].
  1-5: simpl; apply Forall_app; split; [exact H|now constructor].
  - destruct (deleteSelected_items s) as [E|[j E]]; rewrite E; [exact H|].
    simpl. apply Forall_forall. intros it Hin. apply filter_In in Hin as [Hin _].
    exact (proj1 (Forall_forall _ _) H it Hin).
  - unfold exec, duplicateSelected, bind, getSelected.
    destruct (selectedItem s) as [it|] eqn:Hsel; [|exact H].
    simpl. apply Forall_app. split; [exact H|]. constructor; [|constructor].
    unfold selectedItem in Hsel. destruct (selectedId s); [|discriminate].
    apply find_some in Hsel as [Hin _].
    pose proof (proj1 (Forall_forall _ _) H it Hin) as Hr.
    destruct it; simpl in *; exact Hr.
  - eapply Permutation_Forall; [apply Permutation_sym, moveSelected_perm|exact H].
  - exact H.
  - apply U.
  - unfold exec, onDragEnd, setItems. simpl. apply Forall_map.
    eapply Forall_impl; [|exact H]. intros it Hr.
    destruct (String.eqb _ _); [|exact Hr]. destruct it; simpl in *; exact Hr.
  - rewrite commitTransform_as_update.
    destruct (findItem (node_id node) (items s)) as [item|]; [|exact H].
    destruct item; try exact H; apply U.
Qed.

Lemma reachable_no_rotation (s : State) :
  reachable s -> Forall (fun it => rotation (base it) = None) (items s).
Proof.
  induction 1 as [i|s s' _ IH St].
  - repeat constructor.
  - exact (step_keeps_no_rotation s s' St IH).
Qed.

(** No event of the page stores a rotation: in every reachable scene the
    rotation attribute of every item is absent, so the exporter emits no
    rotation transform for any item. *)
Theorem reachable_scene_has_no_rotation (numStr : Q -> string) (s : State) :
  reachable s ->
  Forall (fun it => rotation (base it) = None /\ rot numStr (base it) = "") (items s).
Proof.
  intro R. eapply Forall_impl; [|exact (reachable_no_rotation s R)].
  intros it Hr. split; [exact Hr|]. unfold rot. now rewrite Hr.
Qed.

(** The theorem on the scene reached by adding the default rectangle. *)
Lemma reachable_scene_has_no_rotation_witness :
  reachable sceneWithRect
  /\ Forall (fun it => rotation (base it) = None /\ rot decStr (base it) = "")
       (items sceneWithRect).
Proof.
  split; [exact reachable_sceneWithRect|].
  exact (reachable_scene_has_no_rotation decStr sceneWithRect reachable_sceneWithRect).
Defined.

(** ** Gestures that do not enlarge *)

Lemma clamp_shrink (v s lo hi : Q) :
  lo <= v -> 0 <= v -> s <= 1 -> clamp (v * s) lo hi <= v.
Proof.
  intros Hlo Hv Hs. unfold clamp. apply Q.max_lub; [exact Hlo|].
  apply Qle_trans with (v * s); [apply Q.le_min_r|].
  setoid_replace v with (1 * v) at 2 by ring.
  rewrite (Qmult_comm v s). apply Qmult_le_compat_r; assumption.
Qed.

Lemma shrink_keeps_valid (it : Item) (sX sY : Q) :
  inCommitRange it -> sX <= 1 -> sY <= 1 ->
  itemValid it = true -> itemValid (merge it (commitPatch it sX sY)) = true.
Proof.
  intros Hr HX HY.
  assert (HM : Qmax sX sY <= 1) by (apply Q.max_lub; assumption).
  rewrite !itemValid_iff, !withinEngraveArea_code.
  pose proof bounds_values as (Hx1 & Hy1 & Hx2 & Hy2).
  destruct it as [t|q|c|l|o]; unfold merge; simpl in *;
    rewrite ?Hx1, ?Hy1, ?Hx2, ?Hy2.
  - intros [H _]. split; [exact H|apply clamp_lower].
  - destruct Hr as [[W1 _] [H1 _]].
    pose proof (clamp_shrink (w q) sX 1 500 W1 ltac:(lra) HX) as K1.
    pose proof (clamp_shrink (h q) sY 1 500 H1 ltac:(lra) HY) as K2.
    intros [H _]. split; [lra|exact I].
  - destruct Hr as [R1 _].
    pose proof (clamp_shrink (r c) (Qmax sX sY) 1 500 R1 ltac:(lra) HM) as K1.
    intros [H _]. split; [lra|exact I].
  - tauto.
  - destruct Hr as [S1 _].
    pose proof (clamp_shrink (scaleMm o) (Qmax sX sY) 5 120 S1 ltac:(lra) HM) as K1.
    intros [H _]. split; [lra|exact I].
Qed.

(** In a reachable scene that validates, committing on the selected item a
    gesture whose two scale factors are at most 1 gives a scene that still
    validates. *)
Theorem shrinking_commit_keeps_valid (numStr : Q -> string) (s : State) (node : KonvaNode) :
  reachable s ->
  selectedId s = Some (node_id node) ->
  scaleX node <= 1 ->
  scaleY node <= 1 ->
  ok (eval (validateAll numStr) s) = true ->
  ok (eval (validateAll numStr) (exec (commitTransform node) s)) = true.
Proof.
  intros R Hsel HX HY. rewrite !validateAll_ok_forallb. intro V.
  destruct (reachable_sceneInv s R) as [F N].
  rewrite commitTransform_as_update.
  destruct (findItem (node_id node) (items s)) as [item|] eqn:Hf; [|exact V].
  assert (G : forallb itemValid (items (exec (updateSelected
                (commitPatch item (scaleX node) (scaleY node))) s)) = true).
  { destruct (String.eqb_spec (node_id node) "") as [E0|Hne].
    - assert (X : exec (updateSelected (commitPatch item (scaleX node) (scaleY node))) s = s).
      { unfold exec, updateSelected, bind, getSelectedId. rewrite Hsel, E0. reflexivity. }
      rewrite X. exact V.
    - rewrite (updateSelected_exec s (node_id node) _ Hsel Hne). simpl.
      apply forallb_forall. intros it' Hin.
      apply in_map_iff in Hin as (it & <- & Hin).
      pose proof (proj1 (forallb_forall _ _) V it Hin) as Vit.
      unfold commitUpdate.
      destruct (String.eqb_spec (id (base it)) (node_id node)) as [Ei|_]; [|exact Vit].
      assert (Eit : item = it).
      { pose proof (NoDup_findItem (items s) it N Hin) as X. rewrite Ei, Hf in X.
        congruence. }
      subst item. apply shrink_keeps_valid; try assumption.
      exact (proj1 (proj1 (Forall_forall _ _) F it Hin)). }
  destruct item; try exact G. exact V.
Qed.

(** The theorem on the scene reached by adding the default rectangle, with a
    gesture that halves its width. *)
Lemma shrinking_commit_keeps_valid_witness :
  reachable sceneWithRect
  /\ selectedId sceneWithRect = Some "r1"
  /\ 0.5 <= 1 /\ 1 <= 1
  /\ ok (eval (validateAll decStr) sceneWithRect) = true
  /\ ok (eval (validateAll decStr) (exec (commitTransform (mkNode "r1" 0.5 1)) sceneWithRect))
     = true.
Proof.
  assert (H1 : 0.5 <= 1) by (unfold Qle; simpl; lia).
  assert (H2 : 1 <= 1) by (unfold Qle; simpl; lia).
  assert (V : ok (eval (validateAll decStr) sceneWithRect) = true) by reflexivity.
  split; [exact reachable_sceneWithRect|]. split; [reflexivity|].
  split; [exact H1|]. split; [exact H2|]. split; [exact V|].
  exact (shrinking_commit_keeps_valid decStr sceneWithRect (mkNode "r1" 0.5 1)
           reachable_sceneWithRect eq_refl H1 H2 V).
Defined.

(** * The unit conversions on binary64 *)

Section Binary64Facts.

Local Open Scope Z_scope.

Lemma bounded_cases (m : positive) (e : Z) :
  bounded prec emax m e = true ->
  (Zpos (digits2_pos m) = 53 /\ -1074 <= e <= 971)
  \/ (e = -1074 /\ Zpos (digits2_pos m) <= 52).
Proof.
  unfold bounded, canonical_mantissa, fexp, emin, prec, emax.
  intro H. apply andb_true_iff in H as [H1 H2].
  apply Z.eqb_eq in H1. apply Z.leb_le in H2. lia.
Qed.

Lemma div_eucl_exact (a b q : Z) : 0 < b -> a = q * b -> Z.div_eucl a b = (q, 0).
Proof.
  intros Hb ->.
  assert (E : Z.div_eucl (q * b) b = ((q * b) / b, (q * b) mod b)).
  { unfold Z.div, Z.modulo. now destruct (Z.div_eucl (q * b) b). }
  rewrite E, Z.div_mul, Z.mod_mul by lia. reflexivity.
Qed.

(** An exact value in canonical form is its own rounding. *)
Lemma round_canonical (s : bool) (m : positive) (e : Z) :
  fexp prec emax (Zpos (digits2_pos m) + e) = e -> e <= 971 ->
  binary_round_aux prec emax s (Zpos m) e loc_Exact = S754_finite s m e.
Proof.
  intros Hc He. unfold binary_round_aux, shr_fexp. cbn [shr_record_of_loc Zdigits2].
  rewrite Hc, Z.sub_diag.
  cbn [shr shr_m loc_of_shr_record round_nearest_even shr_record_of_loc Zdigits2].
  rewrite Hc, Z.sub_diag. cbn [shr shr_m].
  replace (e <=? emax - prec) with true; [reflexivity|].
  symmetry. apply Z.leb_le. unfold emax, prec. lia.
Qed.

(** The product of a normal number by 4: the mantissa stays, the exponent
    grows by 2. *)
Lemma mul4_normal (s : bool) (m : positive) (e : Z) :
  Zpos (digits2_pos m) = 53 -> -1076 <= e <= 969 ->
  binary_round_aux prec emax s (Zpos (4503599627370496 * m)) (e + -50) loc_Exact
  = S754_finite s m (e + 2).
Proof.
  intros Hd He. unfold binary_round_aux, shr_fexp.
  cbn [Pos.mul shr_record_of_loc].
  match goal with
  | |- context [shr _ _ ?k] =>
      replace k with 52
        by (unfold fexp, emin, prec, emax, Zdigits2; cbn [digits2_pos]; lia)
  end.
  cbn [shr iter_pos shr_1 orb shr_m loc_of_shr_record round_nearest_even shr_record_of_loc].
  replace (e + -50 + 52) with (e + 2) by lia.
  match goal with
  | |- context [shr _ _ ?k] =>
      replace k with 0
        by (unfold fexp, emin, prec, emax, Zdigits2; cbn [digits2_pos]; lia)
  end.
  cbn [shr shr_m].
  replace (e + 2 <=? emax - prec) with true; [reflexivity|].
  symmetry. apply Z.leb_le. unfold emax, prec. lia.
Qed.

(** The product overflows when the exponent cannot grow by 2. *)
Lemma mul4_overflow (s : bool) (m : positive) (e : Z) :
  Zpos (digits2_pos m) = 53 -> 970 <= e ->
  binary_round_aux prec emax s (Zpos (4503599627370496 * m)) (e + -50) loc_Exact
  = S754_infinity s.
Proof.
  intros Hd He. unfold binary_round_aux, shr_fexp.
  cbn [Pos.mul shr_record_of_loc].
  match goal with
  | |- context [shr _ _ ?k] =>
      replace k with 52
        by (unfold fexp, emin, prec, emax, Zdigits2; cbn [digits2_pos]; lia)
  end.
  cbn [shr iter_pos shr_1 orb shr_m loc_of_shr_record round_nearest_even shr_record_of_loc].
  replace (e + -50 + 52) with (e + 2) by lia.
  match goal with
  | |- context [shr _ _ ?k] =>
      replace k with 0
        by (unfold fexp, emin, prec, emax, Zdigits2; cbn [digits2_pos]; lia)
  end.
  cbn [shr shr_m].
  replace (e + 2 <=? emax - prec) with false; [reflexivity|].
  symmetry. apply Z.leb_gt. unfold emax, prec. lia.
Qed.

(** The product of a subnormal number by 4: one or two more mantissa bits. *)
Lemma mul4_subnormal_52 (s : bool) (m : positive) :
  Zpos (digits2_pos m) = 52 ->
  binary_round_aux prec emax s (Zpos (4503599627370496 * m)) (-1074 + -50) loc_Exact
  = S754_finite s m~0 (-1073).
Proof.
  intros Hd. unfold binary_round_aux, shr_fexp.
  cbn [Pos.mul shr_record_of_loc].
  match goal with
  | |- context [shr _ _ ?k] =>
      replace k with 51
        by (unfold fexp, emin, prec, emax, Zdigits2; cbn [digits2_pos]; lia)
  end.
  cbn [shr iter_pos shr_1 orb shr_m loc_of_shr_record round_nearest_even shr_record_of_loc].
  match goal with
  | |- context [shr _ _ ?k] =>
      replace k with 0
        by (unfold fexp, emin, prec, emax, Zdigits2; cbn [digits2_pos]; lia)
  end.
  reflexivity.
Qed.

Lemma mul4_subnormal (s : bool) (m : positive) :
  Zpos (digits2_pos m) <= 51 ->
  binary_round_aux prec emax s (Zpos (4503599627370496 * m)) (-1074 + -50) loc_Exact
  = S754_finite s m~0~0 (-1074).
Proof.
  intros Hd. unfold binary_round_aux, shr_fexp.
  cbn [Pos.mul shr_record_of_loc].
  match goal with
  | |- context [shr _ _ ?k] =>
      replace k with 50
        by (unfold fexp, emin, prec, emax, Zdigits2; cbn [digits2_pos]; lia)
  end.
  cbn [shr iter_pos shr_1 orb shr_m loc_of_shr_record round_nearest_even shr_record_of_loc].
  match goal with
  | |- context [shr _ _ ?k] =>
      replace k with 0
        by (unfold fexp, emin, prec, emax, Zdigits2; cbn [digits2_pos]; lia)
  end.
  reflexivity.
Qed.

(** The quotient of those products by 4. *)
Lemma div4_normal (s : bool) (m : positive) (e : Z) :
  Zpos (digits2_pos m) = 53 -> -1073 <= e <= 969 ->
  SFdiv prec emax (S754_finite s m (e + 2)) Binary64.four = S754_finite s m e.
Proof.
  intros Hd He. unfold SFdiv, Binary64.four, SFdiv_core_binary.
  cbn [Zdigits2 digits2_pos Pos.succ].
  replace (Z.min _ _) with (e - 1) by (unfold fexp, emin, prec, emax; lia).
  replace (e + 2 - -50 - (e - 1)) with 53 by lia.
  cbn [Z.shiftl Pos.iter].
  rewrite (div_eucl_exact _ _ (Zpos m~0)) by lia.
  cbn [new_location Z.even new_location_even Z.eqb].
  rewrite xorb_false_r.
  unfold binary_round_aux, shr_fexp. cbn [shr_record_of_loc].
  match goal with
  | |- context [shr _ _ ?k] =>
      replace k with 1
        by (unfold fexp, emin, prec, emax, Zdigits2; cbn [digits2_pos]; lia)
  end.
  cbn [shr iter_pos shr_1 orb shr_m loc_of_shr_record round_nearest_even shr_record_of_loc].
  replace (e - 1 + 1) with e by lia.
  match goal with
  | |- context [shr _ _ ?k] =>
      replace k with 0
        by (unfold fexp, emin, prec, emax, Zdigits2; cbn [digits2_pos]; lia)
  end.
  cbn [shr shr_m].
  replace (e <=? emax - prec) with true; [reflexivity|].
  symmetry. apply Z.leb_le. unfold emax, prec. lia.
Qed.

Lemma div4_least_normal (s : bool) (m : positive) :
  Zpos (digits2_pos m) = 53 ->
  SFdiv prec emax (S754_finite s m (-1074 + 2)) Binary64.four = S754_finite s m (-1074).
Proof.
  intros Hd. unfold SFdiv, Binary64.four, SFdiv_core_binary.
  cbn [Zdigits2 digits2_pos Pos.succ].
  replace (Z.min _ _) with (-1074) by (unfold fexp, emin, prec, emax; lia).
  match goal with
  | |- context [match ?k with Z0 => _ | Zpos _ => _ | Zneg _ => _ end] =>
      replace k with 52 by lia
  end.
  cbn [Z.shiftl Pos.iter].
  rewrite (div_eucl_exact _ _ (Zpos m)) by lia.
  cbn [new_location Z.even new_location_even Z.eqb].
  rewrite xorb_false_r.
  apply round_canonical; [unfold fexp, emin, prec, emax|]; lia.
Qed.

Lemma div4_subnormal_52 (s : bool) (m : positive) :
  Zpos (digits2_pos m) = 52 ->
  SFdiv prec emax (S754_finite s m~0 (-1073)) Binary64.four = S754_finite s m (-1074).
Proof.
  intros Hd. unfold SFdiv, Binary64.four, SFdiv_core_binary.
  cbn [Zdigits2 digits2_pos Pos.succ].
  replace (Z.min _ _) with (-1074) by (unfold fexp, emin, prec, emax; lia).
  match goal with
  | |- context [match ?k with Z0 => _ | Zpos _ => _ | Zneg _ => _ end] =>
      replace k with 51 by lia
  end.
  cbn [Z.shiftl Pos.iter].
  rewrite (div_eucl_exact _ _ (Zpos m)) by lia.
  cbn [new_location Z.even new_location_even Z.eqb].
  rewrite xorb_false_r.
  apply round_canonical; [unfold fexp, emin, prec, emax|]; lia.
Qed.

Lemma div4_subnormal (s : bool) (m : positive) :
  Zpos (digits2_pos m) <= 51 ->
  SFdiv prec emax (S754_finite s m~0~0 (-1074)) Binary64.four = S754_finite s m (-1074).
Proof.
  intros Hd. unfold SFdiv, Binary64.four, SFdiv_core_binary.
  cbn [Zdigits2 digits2_pos Pos.succ].
  replace (Z.min _ _) with (-1074) by (unfold fexp, emin, prec, emax; lia).
  match goal with
  | |- context [match ?k with Z0 => _ | Zpos _ => _ | Zneg _ => _ end] =>
      replace k with 50 by lia
  end.
  cbn [Z.shiftl Pos.iter].
  rewrite (div_eucl_exact _ _ (Zpos m)) by lia.
  cbn [new_location Z.even new_location_even Z.eqb].
  rewrite xorb_false_r.
  apply round_canonical; [unfold fexp, emin, prec, emax|]; lia.
Qed.

(** On the specification of binary64: times 4 then by 4 gives the number
    back unless the product is an infinity. *)
Lemma SF_mul4_div4 (v : spec_float) :
  valid_binary v = true ->
  (forall s, SF64mul v Binary64.four <> S754_infinity s) ->
  SF64div (SF64mul v Binary64.four) Binary64.four = v.
Proof.
  intros Hv Hfin. unfold SF64div, SF64mul in *.
  destruct v as [s|s| |s m e].
  - cbn. now rewrite !xorb_false_r.
  - exfalso. now apply (Hfin (xorb s false)).
  - reflexivity.
  - simpl in Hv.
    assert (P : SFmul prec emax (S754_finite s m e) Binary64.four
                = binary_round_aux prec emax s (Zpos (4503599627370496 * m)) (e + -50)
                    loc_Exact).
    { unfold SFmul, Binary64.four. now rewrite xorb_false_r, Pos.mul_comm. }
    rewrite P in *.
    destruct (bounded_cases m e Hv) as [[Hd He]|[-> Hd]].
    + destruct (Z_le_gt_dec e 969) as [L|G].
      * rewrite mul4_normal by lia.
        destruct (Z.eq_dec e (-1074)) as [->|N].
        -- now apply div4_least_normal.
        -- apply div4_normal; lia.
      * exfalso. apply (Hfin s). apply mul4_overflow; lia.
    + destruct (Z.eq_dec (Zpos (digits2_pos m)) 52) as [E|N].
      * rewrite mul4_subnormal_52 by assumption. now apply div4_subnormal_52.
      * rewrite mul4_subnormal by lia. apply div4_subnormal. lia.
Qed.

Lemma four_spec : Prim2SF Binary64.MM_TO_PX = Binary64.four.
Proof.
  reflexivity.
Qed.

End Binary64Facts.

(** C7 (as amended): for every number v whose device value mm(v) = v * 4 is
    finite, that is, does not overflow, pxToMm(mm(v)) is v itself on binary64
    arithmetic, with the constant 4, which is positive; MAX_VALUE / 4 is such
    a v, and mm(MAX_VALUE) is Infinity. *)
Theorem binary64_pxToMm_mm_roundtrip (v : float) :
  PrimFloat.is_finite (Binary64.mm v) = true ->
  Binary64.pxToMm (Binary64.mm v) = v
  /\ Binary64.MM_TO_PX = 4%float
  /\ PrimFloat.ltb 0 Binary64.MM_TO_PX = true
  /\ PrimFloat.is_finite (Binary64.mm (Binary64.MAX_VALUE / 4)) = true
  /\ Binary64.mm Binary64.MAX_VALUE = infinity.
Proof.
  intro H. split; [|repeat split].
  apply Prim2SF_inj. unfold Binary64.pxToMm, Binary64.mm in *.
  rewrite div_spec, mul_spec, four_spec.
  apply SF_mul4_div4; [apply Prim2SF_valid|].
  intros s E. rewrite <- four_spec, <- mul_spec in E.
  unfold PrimFloat.is_finite, is_infinity in H.
  rewrite eqb_spec, abs_spec, E in H.
  rewrite orb_true_r in H. discriminate.
Qed.

(** The theorem at 74.75 mm. *)
Lemma binary64_pxToMm_mm_roundtrip_witness :
  PrimFloat.is_finite (Binary64.mm 74.75%float) = true
  /\ Binary64.pxToMm (Binary64.mm 74.75%float) = 74.75%float.
Proof.
  assert (H : PrimFloat.is_finite (Binary64.mm 74.75%float) = true) by reflexivity.
  split; [exact H|].
  exact (proj1 (binary64_pxToMm_mm_roundtrip 74.75%float H)).
Defined.

(** C7, as stated, fails at v = 1e308, which is not negative: mm(v)
    overflows to Infinity, and so does pxToMm(mm(v)), which is not v. *)
Lemma binary64_roundtrip_overflows :
  PrimFloat.leb 0 Binary64.huge = true
  /\ Binary64.mm Binary64.huge = infinity
  /\ Binary64.pxToMm (Binary64.mm Binary64.huge) = infinity
  /\ PrimFloat.eqb (Binary64.pxToMm (Binary64.mm Binary64.huge)) Binary64.huge = false
  /\ Binary64.pxToMm (Binary64.mm Binary64.huge) <> Binary64.huge.
Proof.
  repeat split.
  intro E. apply (f_equal (fun f => PrimFloat.eqb f Binary64.huge)) in E.
  vm_compute in E. discriminate.
Qed.

(** * Dragging and gesture commits, attribute by attribute *)

Lemma Forall2_map_same {A : Type} (R : A -> A -> Prop) (f : A -> A) (l : list A) :
  (forall a, R a (f a)) -> Forall2 R l (map f l).
Proof.
  intro H. induction l as [|a l IH]; simpl; constructor; auto.
Qed.

Lemma Forall2_same {A : Type} (R : A -> A -> Prop) (l : list A) :
  (forall a, R a a) -> Forall2 R l l.
Proof.
  intro H. induction l as [|a l IH]; constructor; auto.
Qed.

Lemma withAnchor_back (px py : Q) (it : Item) :
  withAnchor (x (base it)) (y (base it)) (withAnchor px py it) = it.
Proof.
  destruct it as [[[] ?]|[[] ?]|[[] ?]|[[] ?]|[[] ?]]; reflexivity.
Qed.

(** The end of a drag stores the node position, converted to millimeters, as
    the anchor of every item that bears the id of the dragged node and
    changes no other attribute of it (putting the old anchor back gives the
    old item); every other item, the order of the items and the selection
    are as before. *)
Theorem onDragEnd_moves_anchor (s : State) (i : string) (nodeX nodeY : Q) :
  Forall2 (fun a a' =>
             if String.eqb (id (base a)) i
             then x (base a') = pxToMm nodeX /\ y (base a') = pxToMm nodeY
                  /\ withAnchor (x (base a)) (y (base a)) a' = a
             else a' = a)
          (items s) (items (exec (onDragEnd i nodeX nodeY) s))
  /\ selectedId (exec (onDragEnd i nodeX nodeY) s) = selectedId s.
Proof.
  split; [|reflexivity].
  unfold exec, onDragEnd, setItems. simpl. apply Forall2_map_same.
  intro a. destruct (String.eqb (id (base a)) i); [|reflexivity].
  split; [now destruct a|]. split; [now destruct a|].
  apply (withAnchor_back (pxToMm nodeX) (pxToMm nodeY) a).
Qed.

Lemma sameButSizes_refl (a : Item) : sameButSizes a a.
Proof.
  destruct a as [[]|[]|[]|[]|[]]; reflexivity.
Qed.

Lemma sameButSizes_commit (item a : Item) (j : string) (sX sY : Q) :
  sameButSizes a (commitUpdate j (commitPatch item sX sY) a).
Proof.
  unfold commitUpdate. destruct (String.eqb _ _); [|apply sameButSizes_refl].
  destruct item, a as [[]|[]|[]|[]|[]]; reflexivity.
Qed.

(** A gesture commit changes sizes only: for every scene and node, each item
    after the commit is the item before it but for its sized attributes
    (font size; width and height; radius; ornament scale), so identifiers,
    anchors, rotation, stroke, text content, font, style, alignment, fill,
    kind and line endpoints are as before, as are the order and number of
    the items and the selection; a node whose id names no item leaves state
    and node untouched, any other node has its scale reset to 1. *)
Theorem commitTransform_keeps_frame (s : State) (node : KonvaNode) :
  Forall2 sameButSizes (items s) (items (exec (commitTransform node) s))
  /\ selectedId (exec (commitTransform node) s) = selectedId s
  /\ match findItem (node_id node) (items s) with
     | None => commitTransform node s = (node, s)
     | Some _ => eval (commitTransform node) s = mkNode (node_id node) 1 1
     end.
Proof.
  assert (H : Forall2 sameButSizes (items s) (items (exec (commitTransform node) s))
              /\ selectedId (exec (commitTransform node) s) = selectedId s).
  { rewrite commitTransform_as_update.
    assert (Same : Forall2 sameButSizes (items s) (items s))
      by (apply Forall2_same, sameButSizes_refl).
    destruct (findItem (node_id node) (items s)) as [item|]; [|split; auto].
    assert (U : Forall2 sameButSizes (items s)
                  (items (exec (updateSelected
                     (commitPatch item (scaleX node) (scaleY node))) s))
                /\ selectedId (exec (updateSelected
                     (commitPatch item (scaleX node) (scaleY node))) s) = selectedId s).
    { destruct (updateSelected_items s (commitPatch item (scaleX node) (scaleY node)))
        as [E|[j E]]; rewrite E; [split; auto|]. simpl. split; [|reflexivity].
      apply Forall2_map_same. intro a. apply sameButSizes_commit. }
    destruct item; try exact U. split; auto. }
  destruct H as (H1 & H2). split; [exact H1|]. split; [exact H2|].
  unfold eval, commitTransform, bind, getItems.
  destruct (findItem (node_id node) (items s)) as [[t|q|c|l|o]|]; simpl;
    try reflexivity;
    match goal with
    | |- context [updateSelected ?p ?st] => now destruct (updateSelected p st)
    end.
Qed.

(** * Containment on the scenes of the page *)

Lemma reachable_sceneRectOnCorner : reachable sceneRectOnCorner.
Proof.
  apply (reach_step sceneWithRect); [exact reachable_sceneWithRect|].
  apply (step_drag sceneWithRect "r1" 300 180).
Qed.

(** C1: for every item of a scene the page can reach, the containment check
    accepts the item exactly when its variant-specific condition holds over
    the legal bounds (ax1,ay1)-(ax2,ay2), all comparisons inclusive: the
    anchor for a text; both corners for a rectangle; center minus and plus
    radius for a circle; the bounding box of the endpoints for a line; the
    anchor and the anchor plus scale for an ornament.  The rectangle with
    its top-left corner exactly on (ax1, ay1) is accepted, and the same
    rectangle 0.01 mm further out is rejected, as sample items and as the
    default rectangle dragged there. *)
Theorem withinEngraveArea_iff_contained (s : State) (it : Item) :
  reachable s ->
  In it (items s) ->
  (withinEngraveArea it = true <-> spec_contained it)
  /\ (withinEngraveArea rectOnCorner = true /\ withinEngraveArea rectMovedOut = false)
  /\ (findItem "r1" (items sceneRectOnCorner) = Some (rectAt (pxToMm 300) (pxToMm 180))
      /\ x (base (rectAt (pxToMm 300) (pxToMm 180))) == ax1
      /\ y (base (rectAt (pxToMm 300) (pxToMm 180))) == ay1
      /\ withinEngraveArea (rectAt (pxToMm 300) (pxToMm 180)) = true)
  /\ (findItem "r1" (items sceneRectMovedOut) = Some (rectAt (pxToMm 299.96) (pxToMm 180))
      /\ x (base (rectAt (pxToMm 299.96) (pxToMm 180))) < ax1
      /\ withinEngraveArea (rectAt (pxToMm 299.96) (pxToMm 180)) = false).
Proof.
  intros R Hin. split; [|repeat split].
  destruct (reachable_sceneInv s R) as [F _].
  rewrite withinEngraveArea_code.
  apply code_contained_spec, inCommitRange_sizes_nonneg.
  exact (proj1 (proj1 (Forall_forall _ _) F it Hin)).
Qed.

(** The theorem at the default rectangle dragged onto the corner of the
    legal bounds. *)
Lemma withinEngraveArea_iff_contained_witness :
  reachable sceneRectOnCorner
  /\ In (rectAt (pxToMm 300) (pxToMm 180)) (items sceneRectOnCorner)
  /\ (withinEngraveArea (rectAt (pxToMm 300) (pxToMm 180)) = true
      <-> spec_contained (rectAt (pxToMm 300) (pxToMm 180))).
Proof.
  assert (Hin : In (rectAt (pxToMm 300) (pxToMm 180)) (items sceneRectOnCorner))
    by (right; left; reflexivity).
  split; [exact reachable_sceneRectOnCorner|]. split; [exact Hin|].
  exact (proj1 (withinEngraveArea_iff_contained sceneRectOnCorner
                  (rectAt (pxToMm 300) (pxToMm 180)) reachable_sceneRectOnCorner Hin)).
Defined.

(** * Gesture commits on the transformer's item *)

Lemma clamp_saturated (v lo hi : Q) : lo <= hi -> saturated v lo hi (clamp v lo hi).
Proof.
  intro H. unfold saturated, clamp.
  destruct (Qlt_le_dec v lo) as [L|L].
  - left. split; [exact L|].
    rewrite (Q.min_r hi v) by lra. apply Q.max_l. lra.
  - destruct (Qlt_le_dec hi v) as [G|G].
    + right. right. split; [exact G|].
      rewrite (Q.min_l hi v) by lra. apply Q.max_r. exact H.
    + right. left. split; [exact L|]. split; [exact G|].
      rewrite (Q.min_r hi v) by exact G. apply Q.max_r. exact L.
Qed.

(** The transformer is attached to the selected item: its id is the
    selected id, which is not empty. *)
Lemma transformerItem_selected (s : State) (it : Item) :
  transformerItem s = Some it ->
  selectedId s = Some (id (base it))
  /\ id (base it) <> ""
  /\ findItem (id (base it)) (items s) = Some it.
Proof.
  unfold transformerItem. destruct (selectedId s) as [j|]; simpl; [|discriminate].
  destruct (String.eqb_spec j "") as [E|Hne]; simpl; [discriminate|].
  intro Hf. pose proof (findItem_id _ _ _ Hf) as Hid. subst j. auto.
Qed.

Lemma onTransformEnd_exec (s : State) (it : Item) (sX sY : Q) :
  transformerItem s = Some it ->
  exec (onTransformEnd sX sY) s
  = exec (commitTransform (mkNode (id (base it)) sX sY)) s.
Proof.
  intro H.
  destruct (transformerItem_selected s it H) as (_ & _ & Hf).
  assert (L : forall l, it = ILine l ->
                exec (commitTransform (mkNode (id (base it)) sX sY)) s = s).
  { intros l El. rewrite commitTransform_as_update. simpl node_id. rewrite Hf.
    now rewrite El. }
  unfold onTransformEnd, bind, getTransformerItem.
  unfold exec at 1. rewrite H.
  destruct it as [t|q|c|l|o];
    try (unfold exec;
         match goal with
         | |- context [commitTransform ?n ?st] => now destruct (commitTransform n st)
         end).
  rewrite (L l eq_refl). reflexivity.
Qed.

(** C5: the end of a resize gesture on a rectangle (the item the transformer
    is attached to) sets the width of the rectangle to w * scaleX capped to
    [1, 500] and its height to h * scaleY capped to [1, 500], each axis on
    its own, and leaves its other attributes and every item with another id
    as they were; the default rectangle of 40 by 20 committed with scales 2
    and 0.5 becomes 80 by 10, and with scales 20 and 0.01 becomes 500 by 1. *)
Theorem onTransformEnd_rect (s : State) (q : RectItem) (sX sY : Q) :
  transformerItem s = Some (IRect q) ->
  findItem (id (rect_base q)) (items (exec (onTransformEnd sX sY) s))
  = Some (IRect (mkRect (rect_base q)
                   (clamp (w q * sX) 1 500) (clamp (h q * sY) 1 500)
                   (rect_fillEnabled q) (rect_fill q)))
  /\ saturated (w q * sX) 1 500 (clamp (w q * sX) 1 500)
  /\ saturated (h q * sY) 1 500 (clamp (h q * sY) 1 500)
  /\ (forall a, In a (items s) -> id (base a) <> id (rect_base q) ->
                In a (items (exec (onTransformEnd sX sY) s)))
  /\ selectedId (exec (onTransformEnd sX sY) s) = selectedId s
  /\ (exists q' : RectItem,
        findItem "r1" (items (exec (onTransformEnd 2 0.5) sceneWithRect)) = Some (IRect q')
        /\ w q' == 80 /\ h q' == 10)
  /\ (exists q' : RectItem,
        findItem "r1" (items (exec (onTransformEnd 20 0.01) sceneWithRect)) = Some (IRect q')
        /\ w q' == 500 /\ h q' == 1).
Proof.
  intro H.
  destruct (transformerItem_selected s _ H) as (Hsel & Hne & Hf). simpl in Hsel, Hne, Hf.
  rewrite (onTransformEnd_exec s _ sX sY H). simpl base.
  destruct (commitTransform_found s (mkNode (id (rect_base q)) sX sY) _ Hsel Hne Hf)
    as [F _].
  destruct (commitTransform_exec s (mkNode (id (rect_base q)) sX sY) _ Hsel Hne Hf)
    as [E _].
  split; [exact F|].
  split; [apply clamp_saturated; unfold Qle; simpl; lia|].
  split; [apply clamp_saturated; unfold Qle; simpl; lia|].
  rewrite E. simpl. split; [|split; [reflexivity|split]].
  - intros a Hin Hid. apply in_map_iff. exists a. split; [|exact Hin].
    unfold commitUpdate. apply String.eqb_neq in Hid. now rewrite Hid.
  - eexists. split; [vm_compute; reflexivity|]. split; reflexivity.
  - eexists. split; [vm_compute; reflexivity|]. split; reflexivity.
Qed.

(** The theorem on the scene that holds the default rectangle, selected. *)
Lemma onTransformEnd_rect_witness :
  transformerItem sceneWithRect = Some (newRect "r1")
  /\ findItem "r1" (items (exec (onTransformEnd 2 0.5) sceneWithRect))
     = Some (IRect (mkRect (mkBase "r1" (70 + 10) (40 + 10) None (Some BLACK) (Some 0.4))
                      (clamp (40 * 2) 1 500) (clamp (20 * 0.5) 1 500) false (Some BLACK))).
Proof.
  split; [reflexivity|].
  exact (proj1 (onTransformEnd_rect sceneWithRect
                  (mkRect (mkBase "r1" (70 + 10) (40 + 10) None (Some BLACK) (Some 0.4))
                     40 20 false (Some BLACK))
                  2 0.5 eq_refl)).
Defined.

(** * Unit-scale commits *)

Lemma clamp_unit (v u lo hi : Q) :
  u == 1 -> lo <= v -> v <= hi -> clamp (v * u) lo hi == v.
Proof.
  intros Hu H1 H2.
  assert (E : v * u == v) by (rewrite Hu; ring).
  rewrite (clamp_inside (v * u) lo hi); [exact E| |]; rewrite E; assumption.
Qed.

Lemma unit_commit_sizes (it : Item) :
  inCommitRange it ->
  Forall2 Qeq (sizedAttrs (merge it (commitPatch it 1 1))) (sizedAttrs it).
Proof.
  destruct it as [t|q|c|l|o]; unfold merge; simpl; intro H;
    repeat (first [apply Forall2_nil | apply Forall2_cons]);
    apply clamp_unit; solve [reflexivity | tauto].
Qed.

Lemma commit_stores_in_range (item a : Item) (j : string) (sX sY : Q) :
  commitUpdate j (commitPatch item sX sY) a = a
  \/ inCommitRange (commitUpdate j (commitPatch item sX sY) a).
Proof.
  unfold commitUpdate. destruct (String.eqb _ _); [|now left].
  destruct item, a; unfold merge; simpl; try (now left); right;
    repeat split;
    first [apply clamp_lower | apply clamp_upper; unfold Qle; simpl; lia].
Qed.

(** C8: committing a gesture with both scales equal to 1 on an item whose
    sized attributes lie in the interval of its variant ([1, 500] for width,
    height and radius, [minFontMm, maxFontMm] for the font size, [5, 120] for
    the ornament scale) leaves these attributes, and the rest of the item,
    unchanged, whatever is selected; and every commit leaves each item it
    changed with sized attributes inside those intervals, so the condition
    holds of an item after a prior commit on it. *)
Theorem commitTransform_unit_scale_keeps_sizes (s : State) (i : string) (it : Item) :
  findItem i (items s) = Some it ->
  inCommitRange it ->
  (exists it' : Item,
     findItem i (items (exec (commitTransform (mkNode i 1 1)) s)) = Some it'
     /\ type it' = type it
     /\ base it' = base it
     /\ sameButSizes it it'
     /\ Forall2 Qeq (sizedAttrs it') (sizedAttrs it))
  /\ (forall (s0 : State) (node : KonvaNode) (a : Item),
        In a (items (exec (commitTransform node) s0)) ->
        In a (items s0) \/ inCommitRange a).
Proof.
  intros Hf Hr. split.
  - assert (Keep : exists it', findItem i (items s) = Some it'
                     /\ type it' = type it /\ base it' = base it
                     /\ sameButSizes it it'
                     /\ Forall2 Qeq (sizedAttrs it') (sizedAttrs it)).
    { exists it. split; [exact Hf|]. split; [reflexivity|]. split; [reflexivity|].
      split; [apply sameButSizes_refl|].
      apply Forall2_same. intro v. reflexivity. }
    rewrite commitTransform_as_update. simpl node_id. rewrite Hf. simpl scaleX. simpl scaleY.
    destruct (updateSelected_items s (commitPatch it 1 1)) as [E|[j E]].
    + destruct it; try rewrite E; exact Keep.
    + assert (G : exists it', findItem i (items (exec (updateSelected (commitPatch it 1 1)) s))
                              = Some it'
                    /\ type it' = type it /\ base it' = base it
                    /\ sameButSizes it it'
                    /\ Forall2 Qeq (sizedAttrs it') (sizedAttrs it)).
      { rewrite E. simpl. rewrite findItem_map by apply commitUpdate_id.
        rewrite Hf. simpl. eexists. split; [reflexivity|].
        split; [|split; [|split; [apply sameButSizes_commit|]]].
        - unfold commitUpdate. destruct (String.eqb _ _); [|reflexivity].
          apply merge_commitPatch_frame.
        - unfold commitUpdate. destruct (String.eqb _ _); [|reflexivity].
          apply merge_commitPatch_frame.
        - unfold commitUpdate. destruct (String.eqb _ _).
          + apply unit_commit_sizes, Hr.
          + apply Forall2_same. intro v. reflexivity. }
      destruct it; try exact G; exact Keep.
  - intros s0 node a Hin. rewrite commitTransform_as_update in Hin.
    destruct (findItem (node_id node) (items s0)) as [item|]; [|now left].
    assert (G : In a (items (exec (updateSelected
                  (commitPatch item (scaleX node) (scaleY node))) s0)) ->
                In a (items s0) \/ inCommitRange a).
    { destruct (updateSelected_items s0 (commitPatch item (scaleX node) (scaleY node)))
        as [E|[j E]]; rewrite E; [now left|]. simpl.
      intro Ha. apply in_map_iff in Ha as (b & <- & Hb).
      destruct (commit_stores_in_range item b j (scaleX node) (scaleY node)) as [Eq|Rg].
      - left. now rewrite Eq.
      - now right. }
    destruct item; try (apply G; exact Hin). now left.
Qed.

(** The theorem on the scene that holds the default circle, with the initial
    text item selected. *)
Lemma commitTransform_unit_scale_keeps_sizes_witness :
  findItem "c1" (items (exec (select (Some "t0")) sceneWithCircle)) = Some (newCircle "c1")
  /\ inCommitRange (newCircle "c1")
  /\ exists it' : Item,
       findItem "c1"
         (items (exec (commitTransform (mkNode "c1" 1 1))
                   (exec (select (Some "t0")) sceneWithCircle))) = Some it'
       /\ type it' = type (newCircle "c1")
       /\ base it' = base (newCircle "c1")
       /\ sameButSizes (newCircle "c1") it'
       /\ Forall2 Qeq (sizedAttrs it') (sizedAttrs (newCircle "c1")).
Proof.
  assert (Hr : inCommitRange (newCircle "c1")) by (simpl; split; unfold Qle; simpl; lia).
  split; [reflexivity|]. split; [exact Hr|].
  exact (proj1 (commitTransform_unit_scale_keeps_sizes
                  (exec (select (Some "t0")) sceneWithCircle) "c1" (newCircle "c1")
                  eq_refl Hr)).
Defined.

(** The end of a gesture is one of the events of the page: it keeps a scene
    among the reachable ones. *)
Lemma reachable_onTransformEnd (s : State) (sX sY : Q) :
  reachable s -> reachable (exec (onTransformEnd sX sY) s).
Proof.
  intro R. destruct (transformerItem s) as [it|] eqn:H.
  - rewrite (onTransformEnd_exec s it sX sY H).
    apply (reach_step s); [exact R|apply step_commit].
  - unfold exec, onTransformEnd, bind, getTransformerItem. rewrite H. exact R.
Qed.
